(** * Airline cargo network optimizer: model of [app.py] and its properties

    The script reads two spreadsheet tabs (direct and indirect markets),
    builds the path registry [all_od_paths] and the leg capacity mapping
    [leg_capacities], hands a linear program to an LP library, and turns the
    variable values into an OD summary and a ranked, labelled leg breakdown.

    A Python float is identified with the rational ([Q]) it denotes. Sums,
    comparisons and minima are taken on these values; where the script
    multiplies two floats or rounds a float to two decimals, the result is
    the nearest binary64 again ([double_of]). Python dictionaries are
    insertion-ordered association lists keyed by Python values; an
    exception is [None]. The LP solver is a library: what it leaves in the
    variables is an argument of the run, and its contract is taken from the
    spec where a property needs it. *)

From Stdlib Require Import QArith Qround Qabs Qpower Lqa Lia String Ascii.
From stdpp Require Import base list sorting strings pretty.

Open Scope Q_scope.

(** ** Python values and builtins *)

(** A spreadsheet cell as the parser delivers it. *)
Inductive cell :=
  | Blank
  | Text (s : string)
  | Number (q : Q).

(** A cell after [.replace("-", 0).fillna(0)]: no missing value is left. *)
Inductive pyval :=
  | VStr (s : string)
  | VNum (q : Q).

(** [float(s)] and [str(x)] of the language, which the script relies on:
    [float] of a string may raise (here [None]). *)
Class Builtins := {
  float_of_str : string -> option Q;
  str_of_num : Q -> string
}.

(** Python's [==] on cell values, which is also dictionary key equality. *)
Definition py_eqb (a b : pyval) : bool :=
  match a, b with
  | VStr s, VStr t => String.eqb s t
  | VNum p, VNum q => Qeq_bool p q
  | _, _ => false
  end.

Definition Qltb (a b : Q) : bool := negb (Qle_bool b a).

(** [min(a, b)]: the second argument only when it is strictly smaller. *)
Definition py_min (a b : Q) : Q := if Qltb b a then b else a.

(** [min(d.get(k, float('inf')), x)], the default being larger than any [x]. *)
Definition min_with_inf (prev : option Q) (x : Q) : Q :=
  match prev with
  | None => x
  | Some c => py_min c x
  end.

Definition py_float `{Builtins} (v : pyval) : option Q :=
  match v with
  | VNum q => Some q
  | VStr s => float_of_str s
  end.

Definition py_str `{Builtins} (v : pyval) : string :=
  match v with
  | VStr s => s
  | VNum q => str_of_num q
  end.

(** [pd.notna]: every cell holds a value once the sheet went through
    [fillna(0)]. *)
Definition pd_notna (v : pyval) : bool := true.

(** ** Dictionaries: insertion-ordered, keys compared with [==] *)

Fixpoint dict_get {V} (k : pyval) (d : list (pyval * V)) : option V :=
  match d with
  | [] => None
  | (k', v) :: d' => if py_eqb k' k then Some v else dict_get k d'
  end.

(** [d[k] = v]: an existing key keeps its place (and its key object). *)
Fixpoint dict_set {V} (k : pyval) (v : V) (d : list (pyval * V)) : list (pyval * V) :=
  match d with
  | [] => [(k, v)]
  | (k', v') :: d' =>
      if py_eqb k' k then (k', v) :: d' else (k', v') :: dict_set k v d'
  end.

(** ** Sheets and rows *)

Definition raw_row := list (string * cell).
Definition row := list (string * pyval).

(** [.replace("-", 0).fillna(0)] on one cell. *)
Definition fill (c : cell) : pyval :=
  match c with
  | Blank => VNum 0
  | Text s => if String.eqb s "-" then VNum 0 else VStr s
  | Number q => VNum q
  end.

Definition parse_sheet (sh : list raw_row) : list row :=
  map (map (fun cv : string * cell => (cv.1, fill cv.2))) sh.

(** [row[col]]; [None] is a [KeyError]. *)
Fixpoint row_get (r : row) (col : string) : option pyval :=
  match r with
  | [] => None
  | (c, v) :: r' => if String.eqb c col then Some v else row_get r' col
  end.

(** [float(row[col]) if pd.notna(row[col]) else 0]. *)
Definition float_or_zero `{Builtins} (r : row) (col : string) : option Q :=
  v ← row_get r col;
  if pd_notna v then py_float v else Some 0.

(** ** Path registry and leg capacities (lines 19-45) *)

Record od_path := {
  legs : list pyval;
  cm : Q;
  max_allocable : Q
}.

Record model := {
  all_od_paths : list (pyval * od_path);
  leg_capacities : list (pyval * Q)
}.

Definition empty_model : model :=
  {| all_od_paths := []; leg_capacities := [] |}.

(** What a direct row must deliver before anything is stored. *)
Definition read_direct `{Builtins} (r : row) : option (pyval * Q * Q * Q) :=
  od ← row_get r "O-D";
  c ← row_get r "CM" ≫= py_float;
  market_share ← float_or_zero r "AI Share";
  capacity ← float_or_zero r "AI Cap";
  Some (od, c, market_share, capacity).

(** One iteration of the direct loop; an exception leaves the model as it
    is ([except: continue]). *)
Definition direct_row `{Builtins} (m : model) (r : row) : model :=
  match read_direct r with
  | Some (od, c, market_share, capacity) =>
      {| all_od_paths :=
           dict_set od {| legs := [od]; cm := c;
                          max_allocable := py_min market_share capacity |}
                    (all_od_paths m);
         leg_capacities := dict_set od capacity (leg_capacities m) |}
  | None => m
  end.

(** The column read for leg number [i] (from 0): [f'{i+1}st Leg AI Cap']. *)
Definition cap_col (i : nat) : string := pretty (i + 1)%nat +:+ "st Leg AI Cap".

(** The inner loop over [enumerate(legs)]: an exception ends it and keeps
    what was stored so far. *)
Fixpoint leg_loop `{Builtins} (r : row) (i : nat) (ls : list pyval)
    (caps : list (pyval * Q)) : list (pyval * Q) :=
  match ls with
  | [] => caps
  | leg :: rest =>
      match float_or_zero r (cap_col i) with
      | None => caps
      | Some leg_cap =>
          leg_loop r (S i) rest
            (dict_set leg (min_with_inf (dict_get leg caps) leg_cap) caps)
      end
  end.

(** What an indirect row must deliver before the path is stored. *)
Definition read_indirect `{Builtins} (r : row) : option (pyval * od_path) :=
  od ← row_get r "O-D";
  c ← row_get r "CM" ≫= py_float;
  share ← float_or_zero r "AI Share";
  leg1 ← row_get r "1st Leg O-D";
  leg2 ← row_get r "2nd Leg O-D";
  Some (od, {| legs := [leg1; leg2]; cm := c; max_allocable := share |}).

Definition indirect_row `{Builtins} (m : model) (r : row) : model :=
  match read_indirect r with
  | Some (od, p) =>
      {| all_od_paths := dict_set od p (all_od_paths m);
         leg_capacities := leg_loop r 0 (legs p) (leg_capacities m) |}
  | None => m
  end.

Definition build_rows `{Builtins} (direct_routes indirect_routes : list row) : model :=
  foldl indirect_row (foldl direct_row empty_model direct_routes) indirect_routes.

Definition build `{Builtins} (sheet0 sheet1 : list raw_row) : model :=
  build_rows (parse_sheet sheet0) (parse_sheet sheet1).

(** ** Strings: variable names and the way back (lines 49 and 62) *)

(** [s.replace(old, new)] for a non-empty [old]: occurrences are replaced
    from the left and do not overlap. [skip] counts the characters of a
    matched occurrence that are still to be dropped. *)
Fixpoint replace_from (old new : string) (skip : nat) (s : string) : string :=
  match s with
  | EmptyString => EmptyString
  | String c s' =>
      match skip with
      | S k => replace_from old new k s'
      | O =>
          if String.prefix old s
          then new +:+ replace_from old new (String.length old - 1) s'
          else String c (replace_from old new 0 s')
      end
  end.

Definition py_replace (old new s : string) : string := replace_from old new 0 s.

(** Modelled from the spec: the table of the LP library's name sanitiser,
    which is not part of src/. Section 9 of the spec only says that OD codes
    are read back "by string-replacing a synthesized variable name"; the
    library replaces each of these characters of a name by an underscore. *)
Definition illegal_chars : list ascii := list_ascii_of_string "-+[] ->/".

Definition trans_char (c : ascii) : ascii :=
  if existsb (Ascii.eqb c) illegal_chars then "_"%char else c.

Fixpoint translate (s : string) : string :=
  match s with
  | EmptyString => EmptyString
  | String c s' => String (trans_char c) (translate s')
  end.

(** The name of the variable [LpVariable.dicts("CargoTons", keys)] makes for
    key [od]. *)
Definition var_name `{Builtins} (od : pyval) : string :=
  translate ("CargoTons_" +:+ py_str od).

(** Line 62: the OD code read back from a variable name. *)
Definition recover_od (name : string) : pyval :=
  VStr (py_replace "_" "-" (py_replace "CargoTons_" "" name)).

(** ** The linear program (lines 48-54) *)

(** A variable is identified with the registry key it was made for; every
    variable has lower bound 0. *)
Record lp_problem := {
  lp_variables : list pyval;
  lp_objective : list (pyval * Q);
  lp_constraints : list (list pyval * Q)
}.

(** [leg in props['legs']]. *)
Definition py_in (x : pyval) (l : list pyval) : bool := existsb (fun e => py_eqb e x) l.

Definition build_lp (m : model) : lp_problem :=
  {| lp_variables := map fst (all_od_paths m);
     lp_objective := map (fun e : pyval * od_path => (e.1, cm e.2)) (all_od_paths m);
     lp_constraints :=
       map (fun lc : pyval * Q =>
              (map fst (List.filter (fun e : pyval * od_path => py_in lc.1 (legs e.2))
                                    (all_od_paths m)),
               lc.2))
           (leg_capacities m)
       ++ map (fun e : pyval * od_path => ([e.1], max_allocable e.2)) (all_od_paths m) |}.

Inductive lp_status := LpOptimal | LpNotSolved | LpInfeasible | LpUnbounded | LpUndefined.

(** What [prob.solve()] leaves behind: a status, and a value (or [None]) in
    each variable. *)
Record lp_outcome := {
  status : lp_status;
  varValue : pyval -> option Q
}.

(** [pulp.value(expr)]: [None] as soon as a variable has no value. The
    products are added up on the values they denote. *)
Fixpoint affine_value (val : pyval -> option Q) (terms : list (pyval * Q)) (s : Q) : option Q :=
  match terms with
  | [] => Some s
  | (v, x) :: rest =>
      match val v with
      | None => None
      | Some a => affine_value val rest (s + a * x)
      end
  end.

(** ** Sorting *)

Fixpoint insert_by {A} (le : A -> A -> bool) (x : A) (l : list A) : list A :=
  match l with
  | [] => [x]
  | y :: l' => if le x y then x :: l else y :: insert_by le x l'
  end.

(** A stable sort: equal elements keep their order (as the sort of a list
    in Python and the sort of a frame by several columns do). *)
Definition sort_by {A} (le : A -> A -> bool) (l : list A) : list A :=
  foldr (insert_by le) [] l.

(** [prob.variables()]: the library returns the variables sorted by name;
    variables of equal name are kept in the order of the registry here. *)
Definition variables `{Builtins} (lp : lp_problem) : list pyval :=
  sort_by (fun a b => String.leb (var_name a) (var_name b)) (lp_variables lp).

(** ** Rounding *)

(** Nearest integer, a tie going to the even one. *)
Definition round_half_even (q : Q) : Z :=
  let f := Qfloor q in
  match Qcompare (q - inject_Z f) (1 # 2) with
  | Lt => f
  | Gt => (f + 1)%Z
  | Eq => if Z.even f then f else (f + 1)%Z
  end.

(** The multiple of 1/100 nearest to [q], a tie going to the even one. *)
Definition round2 (q : Q) : Q := inject_Z (round_half_even (q * 100)) / 100.

(** ** Floats (lines 65-66, 79) *)

Definition pow2 (e : Z) : Q := 2 ^ e.

(** The integer part of the binary logarithm of a positive number: the
    difference of the logarithms of numerator and denominator, or one
    less. *)
Definition ilog2 (q : Q) : Z :=
  let e0 := (Z.log2 (Qnum q) - Z.log2 (Zpos (Qden q)))%Z in
  if Qle_bool (pow2 e0) q then e0 else (e0 - 1)%Z.

(** The exponent of the unit in the last place of a binary64 near [q]: 52
    below the exponent of [q] (53 significant bits), and not below -1074
    (subnormal numbers). *)
Definition ulp_exp (q : Q) : Z := Z.max (-1074) (ilog2 (Qabs q) - 52).

(** The binary64 nearest to [q], a tie going to the even significand.
    Overflow is left out: beyond the largest binary64 the exponent just
    grows. *)
Definition double_of (q : Q) : Q :=
  if Qeq_bool q 0 then 0
  else let e := ulp_exp q in
       Qred (inject_Z (round_half_even (q / pow2 e)) * pow2 e).

(** [a * b] on floats: the exact product, rounded once. *)
Definition float_mul (a b : Q) : Q := double_of (a * b).

(** [round(x, 2)] on a float: the exact value of [x] is rounded to two
    decimals, a tie going to the even digit, and the decimal is read back
    as a float. *)
Definition py_round2 (x : Q) : Q := double_of (round2 x).

(** ** OD summary (lines 59-67) *)

Record od_row := {
  od_pair : pyval;
  cargo_tonnage : Q;
  od_cm : Q;
  od_profit : Q
}.

(** The loop over [prob.variables()]. [None] stands for an exception:
    comparing a missing value with 0, or a key the registry does not have. *)
Fixpoint od_summary_loop `{Builtins} (m : model) (val : pyval -> option Q)
    (vars : list pyval) : option (list od_row) :=
  match vars with
  | [] => Some []
  | v :: rest =>
      tons ← val v;
      if Qltb 0 tons then
        let od := recover_od (var_name v) in
        props ← dict_get od (all_od_paths m);
        rows ← od_summary_loop m val rest;
        Some ({| od_pair := od;
                 cargo_tonnage := py_round2 tons;
                 od_cm := cm props;
                 od_profit := py_round2 (float_mul tons (cm props)) |} :: rows)
      else od_summary_loop m val rest
  end.

(** ** Leg breakdown (lines 70-86) *)

Record leg_row := {
  flight_leg : pyval;
  od_contributor : pyval;
  leg_od_cm : Q;
  leg_tonnage : Q;
  profit_on_leg : Q;
  priority_type : string;
  fill_priority_rank : option nat
}.

(** One record per leg of each summary row, with the two priority columns
    at their initial values. *)
Definition leg_records (m : model) (summary : list od_row) : option (list leg_row) :=
  @concat leg_row <$>
    mapM (fun r : od_row =>
            props ← dict_get (od_pair r) (all_od_paths m);
            Some (map (fun leg =>
                         {| flight_leg := leg;
                            od_contributor := od_pair r;
                            leg_od_cm := od_cm r;
                            leg_tonnage := cargo_tonnage r;
                            profit_on_leg := float_mul (cargo_tonnage r) (od_cm r);
                            priority_type := "Fills Remaining";
                            fill_priority_rank := None |})
                      (legs props)))
         summary.

(** ** Priority classification (lines 88-119) *)

(** A row with its two priority columns written. *)
Definition with_priority (label : string) (rank : nat) (r : leg_row) : leg_row :=
  {| flight_leg := flight_leg r;
     od_contributor := od_contributor r;
     leg_od_cm := leg_od_cm r;
     leg_tonnage := leg_tonnage r;
     profit_on_leg := profit_on_leg r;
     priority_type := label;
     fill_priority_rank := Some rank |}.

(** [df.loc[idx, 'Priority Type'] = label; df.loc[idx, 'Fill Priority Rank'] = rank]. *)
Definition set_priority (idx : nat) (label : string) (rank : nat)
    (tbl : list leg_row) : list leg_row :=
  alter (with_priority label rank) idx tbl.

(** The row labels of the group of [leg], in table order. *)
Definition group_indices (tbl : list leg_row) (leg : pyval) : list nat :=
  map fst (List.filter (fun ir : nat * leg_row => py_eqb (flight_leg ir.2) leg)
                       (imap pair tbl)).

(** The group keys. The library hands the groups out in key order; every
    iteration writes to the rows of its own group only, and here the keys
    come in order of first appearance. *)
Fixpoint distinct_keys (l : list pyval) : list pyval :=
  match l with
  | [] => []
  | k :: l' => k :: List.filter (fun k' => negb (py_eqb k k')) (distinct_keys l')
  end.

(** [len(all_od_paths[od]["legs"]) == 1]. *)
Definition is_direct (m : model) (od : pyval) : option bool :=
  props ← dict_get od (all_od_paths m);
  Some (length (legs props) =? 1)%nat.

(** A row of [sorted_group]: label, CM and the [is_direct] column. *)
Definition sort_key : Type := nat * Q * bool.

(** [sort_values(by=[CM, is_direct], ascending=[False, False])]: [a] may
    stand before [b]. *)
Definition before (a b : sort_key) : bool :=
  if Qltb b.1.2 a.1.2 then true
  else if Qeq_bool a.1.2 b.1.2 then implb b.2 a.2
  else false.

(** [group[CM].max()]. *)
Definition max_cm (first : Q) (rest : list Q) : Q :=
  foldl (fun acc x => if Qltb acc x then x else acc) first rest.

(** The label chosen in lines 109-116. *)
Definition label (is_highest direct : bool) : string :=
  if is_highest && direct then "Highest CM - Direct"
  else if is_highest && negb direct then "Highest CM - Indirect"
  else if direct then "Direct - Lower CM"
  else "Indirect - Lower CM".

(** [sorted_group] before sorting: each row label of the group with its CM
    and its [is_direct] entry. *)
Definition sort_keys (m : model) (tbl : list leg_row) (group : list nat)
    : option (list sort_key) :=
  mapM (fun idx : nat =>
          r ← tbl !! idx;
          d ← is_direct m (od_contributor r);
          Some (idx, leg_od_cm r, d))
       group.

(** [enumerate(l, start=1)]. *)
Definition enumerate1 {A} (l : list A) : list (nat * A) :=
  imap (fun i x => (S i, x)) l.

(** [top_cm] of a group, from the CM column of its rows. *)
Definition group_top (keys : list sort_key) : Q :=
  match keys with
  | [] => 0
  | k :: ks => max_cm k.1.2 (map (fun k' : sort_key => k'.1.2) ks)
  end.

(** The body of the loop over [enumerate(sorted_group.index, start=1)]. It
    reads CM and the contributor of the row again from the table; these
    columns are never written, so the values of [sorted_group] are used. *)
Definition write_rank (top_cm : Q) (t : list leg_row) (rk : nat * sort_key)
    : list leg_row :=
  set_priority rk.2.1.1 (label (Qeq_bool rk.2.1.2 top_cm) rk.2.2) rk.1 t.

(** One iteration of the loop over the groups. *)
Definition classify_group (m : model) (tbl : list leg_row) (leg : pyval)
    : option (list leg_row) :=
  let group := group_indices tbl leg in
  match group with
  | [idx] => Some (set_priority idx "Only OD" 1 tbl)
  | _ =>
      keys ← sort_keys m tbl group;
      let top_cm := group_top keys in
      let sorted_group := sort_by before keys in
      Some (foldl (write_rank top_cm) tbl (enumerate1 sorted_group))
  end.

(** The step of the loop over the groups, an exception ending all. *)
Definition classify_step (m : model) (acc : option (list leg_row)) (leg : pyval)
    : option (list leg_row) :=
  t ← acc; classify_group m t leg.

(** The whole classification; grouping a frame without rows (hence without
    a 'Flight Leg' column) raises. *)
Definition classify (m : model) (tbl : list leg_row) : option (list leg_row) :=
  match tbl with
  | [] => None
  | _ => foldl (classify_step m) (Some tbl) (distinct_keys (map flight_leg tbl))
  end.

(** [groupby('Flight Leg')['Cargo Tonnage'].sum()]. *)
Definition leg_summary (tbl : list leg_row) : list (pyval * Q) :=
  map (fun leg =>
         (leg,
          foldl Qplus 0
            (map leg_tonnage
                 (List.filter (fun r => py_eqb (flight_leg r) leg) tbl))))
      (distinct_keys (map flight_leg tbl)).

(** ** The run (lines 47-131) *)

Record report := {
  df_od_summary : list od_row;
  df_leg_detail : list leg_row;
  df_leg_summary : list (pyval * Q);
  total_profit : Q
}.

(** Everything after [prob.solve()], given what the solver left in the
    problem. [None]: an exception reached the outer handler and no table is
    shown. *)
Definition run `{Builtins} (m : model) (o : lp_outcome) : option report :=
  let prob := build_lp m in
  od_summary ← od_summary_loop m (varValue o) (variables prob);
  records ← leg_records m od_summary;
  detail ← classify m records;
  total ← affine_value (varValue o) (lp_objective prob) 0;
  Some {| df_od_summary := od_summary;
          df_leg_detail := detail;
          df_leg_summary := leg_summary detail;
          total_profit := total |}.

(** The script on the two sheets of the uploaded file. *)
Definition app `{Builtins} (sheet0 sheet1 : list raw_row) (o : lp_outcome)
    : option report :=
  run (build sheet0 sheet1) o.

(** ** Meaning of the linear program *)

(** The left-hand side of a constraint and the objective under an
    assignment [y] of values to the variables. *)
Definition lin_sum (y : pyval -> Q) (vs : list pyval) : Q :=
  foldr (fun v s => y v + s) 0 vs.

Definition objective_at (lp : lp_problem) (y : pyval -> Q) : Q :=
  foldr (fun (t : pyval * Q) s => y t.1 * t.2 + s) 0 (lp_objective lp).

Definition lp_feasible (lp : lp_problem) (y : pyval -> Q) : Prop :=
  Forall (fun v => 0 <= y v) (lp_variables lp) ∧
  Forall (fun c : list pyval * Q => lin_sum y c.1 <= c.2) (lp_constraints lp).

Definition lp_optimal (lp : lp_problem) (y : pyval -> Q) : Prop :=
  lp_feasible lp y ∧
  ∀ z, lp_feasible lp z → objective_at lp z <= objective_at lp y.

(** The values of an outcome agree with an assignment on the variables. *)
Definition values_are (lp : lp_problem) (o : lp_outcome) (y : pyval -> Q) : Prop :=
  Forall (fun v => varValue o v = Some (y v)) (lp_variables lp).

(** Modelled from the spec: the LP solver, which is a library and not part
    of the program. Section 4.2 asks that it "return a provably optimal
    vertex solution (or correctly report infeasibility/unboundedness)":
    an outcome with status optimal carries an optimal assignment, status
    infeasible is reported only for a program without feasible point, and
    status unbounded only for a feasible program without a largest
    objective value; no other status is returned. *)
Definition solver_contract (lp : lp_problem) (o : lp_outcome) : Prop :=
  match status o with
  | LpOptimal => ∃ y, values_are lp o y ∧ lp_optimal lp y
  | LpInfeasible => ∀ y, ¬ lp_feasible lp y
  | LpUnbounded =>
      (∃ y, lp_feasible lp y) ∧
      ∀ bound, ∃ y, lp_feasible lp y ∧ bound < objective_at lp y
  | LpNotSolved | LpUndefined => False
  end.

(** ** The program of section 4.2 over the model *)

(** The tonnage on a leg: the sum over the paths whose leg sequence
    contains it. *)
Definition leg_load (m : model) (t : pyval -> Q) (leg : pyval) : Q :=
  lin_sum t (map fst (List.filter (fun e : pyval * od_path => py_in leg (legs e.2))
                                  (all_od_paths m))).

(** The leg constraints of the program that lines 51-52 build, one for
    every key of the capacity mapping: the load of the leg stays within the
    capacity filed under it. A leg that a path names but the mapping does
    not hold has no constraint. *)
Definition respects_mapped_legs (m : model) (t : pyval -> Q) : Prop :=
  ∀ leg cap, (leg, cap) ∈ leg_capacities m → leg_load m t leg <= cap.

(** Ceiling: every path has a tonnage between 0 and its ceiling. *)
Definition respects_ceilings (m : model) (t : pyval -> Q) : Prop :=
  ∀ od p, (od, p) ∈ all_od_paths m → 0 <= t od ∧ t od <= max_allocable p.

(** No ceiling and no leg capacity of the model is negative. *)
Definition nonneg_model (m : model) : Prop :=
  Forall (fun e : pyval * od_path => 0 <= max_allocable e.2) (all_od_paths m) ∧
  Forall (fun lc : pyval * Q => 0 <= lc.2) (leg_capacities m).

(** Total contribution margin of an assignment. *)
Definition total_cm (m : model) (t : pyval -> Q) : Q :=
  foldr (fun (e : pyval * od_path) s => t e.1 * cm e.2 + s) 0 (all_od_paths m).

(** ** What the build files, record by record *)

(** The registry entry a direct record makes. *)
Definition direct_entry `{Builtins} (r : row) : option (pyval * od_path) :=
  match read_direct r with
  | Some (od, c, market_share, capacity) =>
      Some (od, {| legs := [od]; cm := c;
                   max_allocable := py_min market_share capacity |})
  | None => None
  end.

(** The capacity a direct record states for its own leg code. *)
Definition direct_claim `{Builtins} (r : row) : option (pyval * Q) :=
  match read_direct r with
  | Some (od, c, market_share, capacity) => Some (od, capacity)
  | None => None
  end.

(** The registry entries of all records, in processing order. *)
Definition entries `{Builtins} (direct_routes indirect_routes : list row)
    : list (pyval * od_path) :=
  omap direct_entry direct_routes ++ omap read_indirect indirect_routes.

(** The value of the last pair whose key equals [k]. *)
Fixpoint last_for {V} (k : pyval) (es : list (pyval * V)) : option V :=
  match es with
  | [] => None
  | (k', v) :: es' =>
      match last_for k es' with
      | Some w => Some w
      | None => if py_eqb k' k then Some v else None
      end
  end.

(** The per-leg capacity claims the build reads from an indirect record:
    leg [i] of the record together with the figure in its capacity column. *)
Fixpoint claims_from `{Builtins} (r : row) (i : nat) (ls : list pyval)
    : list (pyval * Q) :=
  match ls with
  | [] => []
  | leg :: rest =>
      match float_or_zero r (cap_col i) with
      | None => []
      | Some c => (leg, c) :: claims_from r (S i) rest
      end
  end.

Definition indirect_claims `{Builtins} (r : row) : list (pyval * Q) :=
  match read_indirect r with
  | Some (od, p) => claims_from r 0 (legs p)
  | None => []
  end.

(** The figures among [claims] that name [k]. *)
Definition figures_for (k : pyval) (claims : list (pyval * Q)) : list Q :=
  map snd (List.filter (fun c : pyval * Q => py_eqb c.1 k) claims).

(** [x] is a minimum of the list [l]. *)
Definition is_min_of (x : Q) (l : list Q) : Prop :=
  x ∈ l ∧ Forall (fun y => x <= y) l.

(** [d[e.1] = e.2], and the update the inner loop makes for one claim. *)
Definition set_entry {V} (d : list (pyval * V)) (e : pyval * V) : list (pyval * V) :=
  dict_set e.1 e.2 d.

Definition min_claim (caps : list (pyval * Q)) (c : pyval * Q) : list (pyval * Q) :=
  dict_set c.1 (min_with_inf (dict_get c.1 caps) c.2) caps.

(** Folding [min_claim] keeps, under each key, the running minimum of the
    figures that name it. *)
Definition running_min (start : option Q) (fs : list Q) : option Q :=
  foldl (fun acc c => Some (min_with_inf acc c)) start fs.

(** ** The contract of section 4.1 *)

(** An indirect record is whole when the build can read every field of it:
    either nothing of it is read (it lacks its code, CM, share or a leg
    code), or both capacity cells can be read too. *)
Definition whole_record `{Builtins} (r : row) : Prop :=
  is_Some (read_indirect r) ->
  is_Some (float_or_zero r (cap_col 0)) ∧ is_Some (float_or_zero r (cap_col 1)).

(** The capacity claims of an indirect record in the sense of section 4.1:
    a record with all its fields states, for each of its two legs, the
    figure of that leg's capacity cell; a malformed record states
    nothing. *)
Definition stated_claims `{Builtins} (r : row) : list (pyval * Q) :=
  match read_indirect r, float_or_zero r (cap_col 0), float_or_zero r (cap_col 1) with
  | Some (od, p), Some c1, Some c2 => zip (legs p) [c1; c2]
  | _, _, _ => []
  end.

(** Every capacity figure contributed to leg code [k]: the own capacity of
    each direct record filed under [k] and each indirect record's claim
    naming [k]. *)
Definition contributed_figures `{Builtins} (D I : list row) (k : pyval) : list Q :=
  figures_for k (omap direct_claim D ++ concat (map stated_claims I)).

(** The same with the last direct record of the code only. *)
Definition stated_figures `{Builtins} (D I : list row) (k : pyval) : list Q :=
  option_list (last_for k (omap direct_claim D))
  ++ figures_for k (concat (map stated_claims I)).

(** ** The contributors of a leg (section 4.3) *)

(** The path filed under [od] traverses [leg]. *)
Definition traverses (m : model) (od leg : pyval) : bool :=
  match dict_get od (all_od_paths m) with
  | Some p => py_in leg (legs p)
  | None => false
  end.

(** The contributors of a leg: the rows of the per-OD output (one for each
    variable with positive value) whose path traverses the leg. *)
Definition contributors (m : model) (summary : list od_row) (leg : pyval)
    : list od_row :=
  List.filter (fun r => traverses m (od_pair r) leg) summary.

(** The CM of contributor [r] is the top CM among the contributors [cs]. *)
Definition top_among (cs : list od_row) (r : od_row) : bool :=
  forallb (fun r' => Qle_bool (od_cm r') (od_cm r)) cs.

(** No path of the registry names a leg twice. *)
Definition distinct_legs (m : model) : Prop :=
  Forall (fun e : pyval * od_path =>
            StronglySorted (fun a b => py_eqb a b = false) (legs e.2))
         (all_od_paths m).

(** The legs of the path filed under [od] (none when there is no path). *)
Definition path_legs (m : model) (od : pyval) : list pyval :=
  default [] (legs <$> dict_get od (all_od_paths m)).

(** ** The classification in the words of the spec *)

(** The columns of the leg breakdown that the classification only reads. *)
Definition static (r : leg_row) : pyval * pyval * Q * Q * Q :=
  (flight_leg r, od_contributor r, leg_od_cm r, leg_tonnage r, profit_on_leg r).

(** The contribution records of a leg. *)
Definition group_rows (tbl : list leg_row) (leg : pyval) : list leg_row :=
  List.filter (fun r => py_eqb (flight_leg r) leg) tbl.

(** The CM of [r] is the top CM of its leg: no record of the leg has a
    larger one. *)
Definition is_highest (tbl : list leg_row) (r : leg_row) : bool :=
  forallb (fun r' => Qle_bool (leg_od_cm r') (leg_od_cm r))
          (group_rows tbl (flight_leg r)).

(** The label table of section 4.3, step 5. *)
Definition reference_label (highest direct : bool) : string :=
  match highest, direct with
  | true, true => "Highest CM - Direct"
  | true, false => "Highest CM - Indirect"
  | false, true => "Direct - Lower CM"
  | false, false => "Indirect - Lower CM"
  end.

(** The order of section 4.3, step 3, between two contributors given by CM
    and directness: larger CM first, and at equal CM direct before
    indirect. *)
Definition ranks_ahead (c1 : Q) (d1 : bool) (c2 : Q) (d2 : bool) : Prop :=
  c2 < c1 ∨ (c1 == c2 ∧ d1 = true ∧ d2 = false).

(** What is left to table order: equal CM and equal directness. *)
Definition ties (c1 : Q) (d1 : bool) (c2 : Q) (d2 : bool) : Prop :=
  c1 == c2 ∧ d1 = d2.

(** The full order on the rows of [sorted_group]: the order of the spec,
    and row labels where it leaves a tie. *)
Definition key_lt (a b : sort_key) : Prop :=
  ranks_ahead a.1.2 a.2 b.1.2 b.2 ∨ (ties a.1.2 a.2 b.1.2 b.2 ∧ (a.1.1 < b.1.1)%nat).

(** The labels of the rows of a leg, counted from [k]. *)
Fixpoint indices_from (k : nat) (tbl : list leg_row) (leg : pyval) : list nat :=
  match tbl with
  | [] => []
  | r :: tbl' =>
      if py_eqb (flight_leg r) leg
      then k :: indices_from (S k) tbl' leg
      else indices_from (S k) tbl' leg
  end.

(** The rows of the group of [leg] carry in [t'] what one iteration of the
    loop writes, given the table [t] it starts from. *)
Definition group_done (m : model) (t t' : list leg_row) (leg : pyval) : Prop :=
  match group_indices t leg with
  | [idx] => t' !! idx = with_priority "Only OD" 1 <$> t !! idx
  | group =>
      ∃ keys, sort_keys m t group = Some keys ∧
        ∀ p key, sort_by before keys !! p = Some key ->
          t' !! key.1.1
          = with_priority (label (Qeq_bool key.1.2 (group_top keys)) key.2) (S p)
              <$> t !! key.1.1
  end.

(** ** Totals *)

Definition qsum {A} (g : A -> Q) (l : list A) : Q := foldr (fun x s => g x + s) 0 l.





(** The keys of a dictionary are pairwise different. *)
Definition distinct_dict {V} (d : list (pyval * V)) : Prop :=
  StronglySorted (fun a b : pyval * V => py_eqb a.1 b.1 = false) d.

(** Every contributor of the table is a key of the registry. *)
Definition contributors_known (m : model) (t : list leg_row) : Prop :=
  Forall (fun r => is_Some (is_direct m (od_contributor r))) t.

(** ** OD codes that survive the variable name *)

Definition is_alnum (c : ascii) : bool :=
  let n := nat_of_ascii c in
  ((48 <=? n) && (n <=? 57) || (65 <=? n) && (n <=? 90)
   || (97 <=? n) && (n <=? 122))%nat.

(** A letter, a digit or the hyphen. *)
Definition code_char (c : ascii) : bool := is_alnum c || Ascii.eqb c "-".

Fixpoint all_chars (f : ascii -> bool) (s : string) : bool :=
  match s with
  | EmptyString => true
  | String c s' => f c && all_chars f s'
  end.

(** [pat in s]. *)
Fixpoint occurs (pat s : string) : bool :=
  match s with
  | EmptyString => String.prefix pat EmptyString
  | String c s' => String.prefix pat s || occurs pat s'
  end.

(** Letters, digits and hyphens only, and the prefix of the variable names
    does not show up inside the code. *)
Definition plain_code (s : string) : bool :=
  all_chars code_char s && negb (occurs "CargoTons-" s).

(** The variable carries a positive value ([v.varValue > 0]). *)
Definition has_tonnage (o : lp_outcome) (v : pyval) : bool :=
  match varValue o v with
  | Some t => Qltb 0 t
  | None => false
  end.

(** ** Sample data *)

(** Builtins for the samples below, where no text is converted to a number
    and no number is printed. *)
Definition plain_builtins : Builtins :=
  {| float_of_str := fun _ => None; str_of_num := fun _ => "0"%string |}.

Definition direct_record (od : string) (c share cap : Q) : raw_row :=
  [("O-D", Text od); ("CM", Number c); ("AI Share", Number share);
   ("AI Cap", Number cap)]%string.

(** An indirect record under the headers of the leg columns ("1st", "2nd"). *)
Definition indirect_record (od : string) (c share : Q)
    (leg1 : string) (cap1 : Q) (leg2 : string) (cap2 : Q) : raw_row :=
  [("O-D", Text od); ("CM", Number c); ("AI Share", Number share);
   ("1st Leg O-D", Text leg1); ("2nd Leg O-D", Text leg2);
   ("1st Leg AI Cap", Number cap1); ("2nd Leg AI Cap", Number cap2)]%string.

(** The same with the second capacity under the header the loop asks for. *)
Definition indirect_record_st (od : string) (c share : Q)
    (leg1 : string) (cap1 : Q) (leg2 : string) (cap2 : Q) : raw_row :=
  [("O-D", Text od); ("CM", Number c); ("AI Share", Number share);
   ("1st Leg O-D", Text leg1); ("2nd Leg O-D", Text leg2);
   ("1st Leg AI Cap", Number cap1); ("2st Leg AI Cap", Number cap2)]%string.

(** An outcome whose variable values are listed by key. *)
Definition outcome_of (st : lp_status) (vals : list (pyval * Q)) : lp_outcome :=
  {| status := st; varValue := fun k => dict_get k vals |}.

(** A leg shared by a direct and an indirect market (scenario B of the
    spec), and the allocation that is optimal there. *)
Definition shared_leg_direct : list raw_row := [direct_record "A-B" 10 60 50].

Definition shared_leg_indirect : list raw_row :=
  [indirect_record_st "A-C" 20 30 "A-B" 50 "B-C" 40].

Definition shared_leg_values : list (pyval * Q) :=
  [(VStr "A-B", 20); (VStr "A-C", 30)].

Definition shared_leg_outcome : lp_outcome := outcome_of LpOptimal shared_leg_values.

(** An OD code with a space, and one that contains the variable prefix. *)
Definition space_code_sheet : list raw_row := [direct_record "A B" 10 5 5].
Definition space_code_outcome : lp_outcome := outcome_of LpOptimal [(VStr "A B", 5)].

Definition prefix_code_sheet : list raw_row := [direct_record "CargoTons-1" 10 5 5].
Definition prefix_code_outcome : lp_outcome :=
  outcome_of LpOptimal [(VStr "CargoTons-1", 5)].

(** The report of the shared-leg sample. *)
Definition no_report : report :=
  {| df_od_summary := []; df_leg_detail := []; df_leg_summary := [];
     total_profit := 0 |}.

Definition shared_leg_report : report :=
  default no_report
    (@run plain_builtins
       (@build plain_builtins shared_leg_direct shared_leg_indirect)
       shared_leg_outcome).

(** Two indirect markets with the same CM on a common first leg. *)
Definition tie_indirect : list raw_row :=
  [indirect_record_st "A-C" 20 30 "A-B" 50 "B-C" 40;
   indirect_record_st "A-D" 20 30 "A-B" 50 "B-D" 40].

Definition tie_outcome : lp_outcome :=
  outcome_of LpOptimal [(VStr "A-C", 30); (VStr "A-D", 20)].






(** An indirect market that names the leg A-B twice. *)
Definition twice_sheet : list raw_row :=
  [indirect_record_st "A-C" 20 30 "A-B" 50 "A-B" 40].

Definition twice_outcome : lp_outcome := outcome_of LpOptimal [(VStr "A-C", 30)].

Definition twice_report : report :=
  default no_report (@app plain_builtins [] twice_sheet twice_outcome).

(** A market whose own capacity is negative, next to a sound one, and an
    outcome with status infeasible that still carries values. *)
Definition negative_sheet : list raw_row :=
  [direct_record "A-B" 10 5 5; direct_record "C-D" 10 5 (-1)].

Definition negative_outcome : lp_outcome :=
  outcome_of LpInfeasible [(VStr "A-B", 5); (VStr "C-D", 0)].

Definition negative_report : report :=
  default no_report (@app plain_builtins negative_sheet [] negative_outcome).

(** ** Rows before and after filling *)

(** [row[col]] on a row as parsed, before [replace] and [fillna]. *)
Fixpoint raw_get (r : raw_row) (col : string) : option cell :=
  match r with
  | [] => None
  | (c, v) :: r' => if String.eqb c col then Some v else raw_get r' col
  end.

(** One row of [parse_sheet]. *)
Definition parse_row (r : raw_row) : row :=
  map (fun cv : string * cell => (cv.1, fill cv.2)) r.

(** A cell that [.replace("-", 0).fillna(0)] turns into 0. *)
Definition empty_cell (c : cell) : Prop := c = Blank ∨ c = Text "-".

(** ** Shapes kept by the build *)

(** A registry entry is a single leg equal to its own code, or two legs. *)
Definition well_shaped (e : pyval * od_path) : Prop :=
  (∃ k, legs e.2 = [k] ∧ py_eqb e.1 k = true) ∨ length (legs e.2) = 2%nat.

(** The characters a recovered OD code cannot contain: the underscore and
    what the sanitiser rewrites, the hyphen apart. *)
Definition forbidden (c : ascii) : bool :=
  existsb (Ascii.eqb c) (list_ascii_of_string "_+[] >/").

(** An OD code that is text and holds none of those characters. *)
Definition clean_code (od : pyval) : bool :=
  match od with
  | VStr s => all_chars (fun c => negb (forbidden c)) s
  | VNum _ => false
  end.

(** The number of legs of the path filed under [od] (0 when there is none). *)
Definition legs_count (m : model) (od : pyval) : nat :=
  length (default [] (legs <$> dict_get od (all_od_paths m))).

(** The five labels the classification writes. *)
Definition priority_labels : list string :=
  ["Only OD"; "Highest CM - Direct"; "Highest CM - Indirect";
   "Direct - Lower CM"; "Indirect - Lower CM"]%string.

(** Every column of the leg breakdown but the tonnage and the profit. *)
Definition rank_view (r : leg_row) : pyval * pyval * Q * string * option nat :=
  (flight_leg r, od_contributor r, leg_od_cm r, priority_type r,
   fill_priority_rank r).

(** The number of legs of a summary row's path, as a factor. *)
Definition legs_factor (m : model) (r : od_row) : Q :=
  inject_Z (Z.of_nat (legs_count m (od_pair r))).

(** A record of the leg breakdown with its tonnage and profit blanked. *)
Definition without_tonnage (r : leg_row) : leg_row :=
  {| flight_leg := flight_leg r;
     od_contributor := od_contributor r;
     leg_od_cm := leg_od_cm r;
     leg_tonnage := 0;
     profit_on_leg := 0;
     priority_type := priority_type r;
     fill_priority_rank := fill_priority_rank r |}.

(** * Properties *)

(** A computation in the exception monad that returned: its first step
    returned too. *)
Ltac bind_case H :=
  match type of H with
  | context [mbind _ ?x] => destruct x eqn:?; simpl in H; [|discriminate H]
  end.


(** ** Key equality and dictionaries *)

Lemma py_eqb_refl a : py_eqb a a = true.
Proof. destruct a; simpl; [apply String.eqb_refl | apply Qeq_bool_refl]. Qed.

Lemma py_eqb_sym a b : py_eqb a b = py_eqb b a.
Proof.
  destruct a, b; simpl; auto using String.eqb_sym.
  destruct (Qeq_bool q q0) eqn:E1, (Qeq_bool q0 q) eqn:E2; auto.
  - apply Qeq_bool_sym in E1. congruence.
  - apply Qeq_bool_sym in E2. congruence.
Qed.

Lemma py_eqb_trans a b c :
  py_eqb a b = true -> py_eqb b c = true -> py_eqb a c = true.
Proof.
  destruct a, b, c; simpl; try discriminate.
  - rewrite !String.eqb_eq. congruence.
  - apply Qeq_bool_trans.
Qed.

Lemma py_eqb_congr_l a b c :
  py_eqb a b = true -> py_eqb a c = py_eqb b c.
Proof.
  intros Hab. destruct (py_eqb b c) eqn:E.
  - eapply py_eqb_trans; eauto.
  - destruct (py_eqb a c) eqn:E'; auto.
    rewrite py_eqb_sym in Hab. rewrite <- E. symmetry.
    eapply py_eqb_trans; eauto.
Qed.

Lemma py_eqb_congr_r a b c :
  py_eqb a b = true -> py_eqb c a = py_eqb c b.
Proof. intros. rewrite (py_eqb_sym c a), (py_eqb_sym c b). by apply py_eqb_congr_l. Qed.

Lemma dict_get_set {V} k k' (v : V) d :
  dict_get k (dict_set k' v d) = if py_eqb k' k then Some v else dict_get k d.
Proof.
  induction d as [|[a w] d IH]; simpl.
  - done.
  - destruct (py_eqb a k') eqn:E; simpl.
    + rewrite (py_eqb_congr_l _ _ k E). by destruct (py_eqb k' k).
    + rewrite IH. destruct (py_eqb a k) eqn:E'; auto.
      destruct (py_eqb k' k) eqn:E''; auto.
      rewrite py_eqb_sym in E''. pose proof (py_eqb_trans _ _ _ E' E'').
      congruence.
Qed.

Lemma dict_get_congr {V} k k' (d : list (pyval * V)) :
  py_eqb k k' = true -> dict_get k d = dict_get k' d.
Proof.
  intros E. induction d as [|[a w] d IH]; simpl; auto.
  by rewrite (py_eqb_congr_r _ _ a E), IH.
Qed.

(** ** The build as two folds *)

Section BuildFacts.
Context `{Builtins}.

Lemma read_indirect_inv r od p :
  read_indirect r = Some (od, p) ->
  ∃ leg1 leg2,
    row_get r "O-D" = Some od ∧
    row_get r "CM" ≫= py_float = Some (cm p) ∧
    float_or_zero r "AI Share" = Some (max_allocable p) ∧
    row_get r "1st Leg O-D" = Some leg1 ∧
    row_get r "2nd Leg O-D" = Some leg2 ∧
    legs p = [leg1; leg2].
Proof.
  unfold read_indirect. intros Hr. repeat bind_case Hr.
  injection Hr as <- <-. by eexists _, _.
Qed.

Lemma direct_row_paths m r :
  all_od_paths (direct_row m r) =
  foldl set_entry (all_od_paths m) (option_list (direct_entry r)).
Proof.
  unfold direct_row, direct_entry.
  destruct (read_direct r) as [[[[od c] ms] cap]|]; done.
Qed.

Lemma direct_row_caps m r :
  leg_capacities (direct_row m r) =
  foldl set_entry (leg_capacities m) (option_list (direct_claim r)).
Proof.
  unfold direct_row, direct_claim.
  destruct (read_direct r) as [[[[od c] ms] cap]|]; done.
Qed.

Lemma leg_loop_claims r i ls caps :
  leg_loop r i ls caps = foldl min_claim caps (claims_from r i ls).
Proof.
  revert i caps. induction ls as [|leg rest IH]; intros i caps; simpl; [done|].
  destruct (float_or_zero r (cap_col i)); simpl; [|done]. by rewrite IH.
Qed.

Lemma indirect_row_paths m r :
  all_od_paths (indirect_row m r) =
  foldl set_entry (all_od_paths m) (option_list (read_indirect r)).
Proof. unfold indirect_row. destruct (read_indirect r) as [[od p]|]; done. Qed.

Lemma indirect_row_caps m r :
  leg_capacities (indirect_row m r) =
  foldl min_claim (leg_capacities m) (indirect_claims r).
Proof.
  unfold indirect_row, indirect_claims.
  destruct (read_indirect r) as [[od p]|]; simpl; [|done].
  apply leg_loop_claims.
Qed.

Lemma direct_loop_paths m rows :
  all_od_paths (foldl direct_row m rows) =
  foldl set_entry (all_od_paths m) (omap direct_entry rows).
Proof.
  revert m. induction rows as [|r rows IH]; intros m; simpl; [done|].
  rewrite IH, direct_row_paths. by destruct (direct_entry r).
Qed.

Lemma direct_loop_caps m rows :
  leg_capacities (foldl direct_row m rows) =
  foldl set_entry (leg_capacities m) (omap direct_claim rows).
Proof.
  revert m. induction rows as [|r rows IH]; intros m; simpl; [done|].
  rewrite IH, direct_row_caps. by destruct (direct_claim r).
Qed.

Lemma indirect_loop_paths m rows :
  all_od_paths (foldl indirect_row m rows) =
  foldl set_entry (all_od_paths m) (omap read_indirect rows).
Proof.
  revert m. induction rows as [|r rows IH]; intros m; simpl; [done|].
  rewrite IH, indirect_row_paths. by destruct (read_indirect r).
Qed.

Lemma indirect_loop_caps m rows :
  leg_capacities (foldl indirect_row m rows) =
  foldl min_claim (leg_capacities m) (concat (map indirect_claims rows)).
Proof.
  revert m. induction rows as [|r rows IH]; intros m; simpl; [done|].
  by rewrite IH, indirect_row_caps, foldl_app.
Qed.

Lemma build_rows_paths D I :
  all_od_paths (build_rows D I) = foldl set_entry [] (entries D I).
Proof.
  unfold build_rows, entries.
  by rewrite indirect_loop_paths, direct_loop_paths, foldl_app.
Qed.

Lemma build_rows_caps D I :
  leg_capacities (build_rows D I) =
  foldl min_claim (foldl set_entry [] (omap direct_claim D))
        (concat (map indirect_claims I)).
Proof. unfold build_rows. by rewrite indirect_loop_caps, direct_loop_caps. Qed.

End BuildFacts.

Lemma last_for_app {V} k (es fs : list (pyval * V)) :
  last_for k (es ++ fs) =
  match last_for k fs with Some w => Some w | None => last_for k es end.
Proof.
  induction es as [|[a v] es IH]; simpl.
  - by destruct (last_for k fs).
  - rewrite IH. by destruct (last_for k fs).
Qed.

Lemma foldl_set_entry_get {V} k (es d : list (pyval * V)) :
  dict_get k (foldl set_entry d es) =
  match last_for k es with Some w => Some w | None => dict_get k d end.
Proof.
  revert d. induction es as [|[a v] es IH]; intros d; simpl; [done|].
  rewrite IH. destruct (last_for k es) as [w|]; [done|].
  unfold set_entry; simpl. rewrite dict_get_set.
  by destruct (py_eqb a k).
Qed.

Lemma foldl_min_claim_get k cl d :
  dict_get k (foldl min_claim d cl) = running_min (dict_get k d) (figures_for k cl).
Proof.
  revert d. induction cl as [|[leg c] cl IH]; intros d; simpl; [done|].
  rewrite IH. unfold min_claim; simpl. rewrite dict_get_set.
  unfold figures_for; simpl. destruct (py_eqb leg k) eqn:E; simpl; [|done].
  by rewrite (dict_get_congr _ _ d E).
Qed.

Lemma py_min_cases a b :
  (py_min a b = a ∧ a <= b) ∨ (py_min a b = b ∧ b <= a).
Proof.
  unfold py_min, Qltb. destruct (Qle_bool a b) eqn:E; simpl.
  - left. split; [done|]. by apply Qle_bool_iff.
  - right. split; [done|].
    destruct (Qlt_le_dec b a) as [Hlt|Hle]; [by apply Qlt_le_weak|].
    apply Qle_bool_iff in Hle. congruence.
Qed.

Lemma running_min_some x fs :
  ∃ y, running_min (Some x) fs = Some y ∧ is_min_of y (x :: fs).
Proof.
  revert x. induction fs as [|c fs IH]; intros x; simpl.
  - exists x. split; [done|]. split; [left|]. repeat constructor. apply Qle_refl.
  - destruct (IH (py_min x c)) as (y & Hy & Hin & Hall).
    exists y. split; [done|].
    apply Forall_cons in Hall as [Hy1 Hall].
    destruct (py_min_cases x c) as [[E Hle]|[E Hle]]; rewrite E in *.
    + split.
      * apply elem_of_cons in Hin as [->|Hin]; [left|by do 2 right].
      * constructor; [done|]. constructor; [|done]. by eapply Qle_trans.
    + split.
      * apply elem_of_cons in Hin as [->|Hin]; [right; left|by do 2 right].
      * constructor; [by eapply Qle_trans|]. by constructor.
Qed.

Lemma running_min_spec start fs :
  match running_min start fs with
  | Some y => is_min_of y (option_list start ++ fs)
  | None => option_list start ++ fs = []
  end.
Proof.
  destruct start as [x|]; simpl.
  - destruct (running_min_some x fs) as (y & -> & Hy). done.
  - destruct fs as [|c fs]; simpl; [done|].
    destruct (running_min_some c fs) as (y & -> & Hy). done.
Qed.

Lemma last_for_none {V} k (es : list (pyval * V)) :
  Forall (fun e => py_eqb e.1 k = false) es -> last_for k es = None.
Proof.
  induction 1 as [|[a v] es Hk _ IH]; simpl; [done|].
  rewrite IH. simpl in Hk. by rewrite Hk.
Qed.

Lemma omap_cons_eq {A B} (f : A -> option B) x l :
  omap f (x :: l) = match f x with Some y => y :: omap f l | None => omap f l end.
Proof. done. Qed.

Lemma omap_keys_none {A V} (f : A -> option (pyval * V)) k l :
  Forall (fun x => ∀ e, f x = Some e -> py_eqb e.1 k = false) l ->
  Forall (fun e => py_eqb e.1 k = false) (omap f l).
Proof.
  induction 1 as [|x l Hx _ IH]; simpl; [constructor|].
  destruct (f x) as [e|] eqn:E; [|done]. constructor; auto.
Qed.

(** ** Build: which record decides (C10, C4, C6) *)

(** C10. When an OD code is filed by a direct record and by a later indirect
    record, the registry holds the indirect record's path (legs, CM and
    ceiling) under that code, while the direct record's capacity stays in
    the leg capacity mapping: the entry under the code is the minimum of
    that capacity and the claims the indirect loop reads for this leg code
    (so it is that capacity itself when no indirect record names the code
    as a leg). In general the registry entry of any code is that of the
    last record processed for it. Here [d] is the last direct and [r] the
    last indirect record of the code. *)
Theorem C10_last_record_wins `{Builtins} (D1 D2 I1 I2 : list row) (d r : row)
    (od od' : pyval) (c ms cap : Q) (p : od_path) :
  read_direct d = Some (od, c, ms, cap) ->
  read_indirect r = Some (od', p) ->
  py_eqb od' od = true ->
  Forall (fun d' => ∀ e, direct_claim d' = Some e -> py_eqb e.1 od = false) D2 ->
  Forall (fun r' => ∀ e, read_indirect r' = Some e -> py_eqb e.1 od = false) I2 ->
  let m := build_rows (D1 ++ d :: D2) (I1 ++ r :: I2) in
  dict_get od (all_od_paths m) = Some p ∧
  (∃ c', dict_get od (leg_capacities m) = Some c' ∧ c' <= cap ∧
         is_min_of c'
           (cap :: figures_for od (concat (map indirect_claims (I1 ++ r :: I2))))) ∧
  ∀ k, dict_get k (all_od_paths m)
       = last_for k (entries (D1 ++ d :: D2) (I1 ++ r :: I2)).
Proof.
  intros Hd Hr Heq HD2 HI2 m.
  assert (Hall : ∀ k, dict_get k (all_od_paths m)
                      = last_for k (entries (D1 ++ d :: D2) (I1 ++ r :: I2))).
  { intros k. unfold m. rewrite build_rows_paths, foldl_set_entry_get.
    by destruct (last_for k _). }
  split; [|split; [|done]].
  - rewrite Hall. unfold entries. rewrite last_for_app, omap_app, last_for_app.
    pose proof (last_for_none od _ (omap_keys_none _ _ _ HI2)) as E.
    rewrite omap_cons_eq, Hr. cbn [last_for]. by rewrite E, Heq.
  - unfold m. rewrite build_rows_caps, foldl_min_claim_get, foldl_set_entry_get.
    rewrite omap_app, last_for_app.
    pose proof (last_for_none od _ (omap_keys_none _ _ _ HD2)) as E.
    assert (Hc : direct_claim d = Some (od, cap)) by (unfold direct_claim; by rewrite Hd).
    rewrite omap_cons_eq, Hc. cbn [last_for]. rewrite E, py_eqb_refl.
    destruct (running_min_some cap
                (figures_for od (concat (map indirect_claims (I1 ++ r :: I2)))))
      as (y & -> & Hin & Hle).
    exists y. split; [done|]. split; [|by split].
    by apply Forall_cons in Hle as [? _].
Qed.

Lemma C10_last_record_wins_witness :
  let D := parse_sheet [direct_record "A-B" 10 60 50] in
  let I := parse_sheet [indirect_record_st "A-B" 20 30 "A-X" 40 "X-B" 45] in
  let m := @build_rows plain_builtins D I in
  dict_get (VStr "A-B") (all_od_paths m)
  = Some {| legs := [VStr "A-X"; VStr "X-B"]; cm := 20; max_allocable := 30 |} ∧
  (∃ c', dict_get (VStr "A-B") (leg_capacities m) = Some c' ∧ c' <= 50 ∧
         is_min_of c'
           (50 :: figures_for (VStr "A-B")
                    (concat (map (@indirect_claims plain_builtins) ([] ++ I))))) ∧
  ∀ k, dict_get k (all_od_paths m) = last_for k (@entries plain_builtins D I).
Proof.
  apply (@C10_last_record_wins plain_builtins [] [] [] []
           _ _ (VStr "A-B") (VStr "A-B") 10 60 50).
  - reflexivity.
  - reflexivity.
  - reflexivity.
  - constructor.
  - constructor.
Defined.

Lemma whole_claims `{Builtins} r : whole_record r -> indirect_claims r = stated_claims r.
Proof.
  unfold whole_record, indirect_claims, stated_claims. intros Hw.
  destruct (read_indirect r) as [[od p]|] eqn:Hr; [|done].
  destruct (read_indirect_inv _ _ _ Hr) as (l1 & l2 & _ & _ & _ & _ & _ & ->).
  destruct Hw as [[c1 H1] [c2 H2]]; [by eexists|].
  cbn [claims_from]. by rewrite H1, H2.
Qed.

Lemma whole_claims_all `{Builtins} I :
  Forall whole_record I ->
  concat (map indirect_claims I) = concat (map stated_claims I).
Proof.
  induction 1 as [|r I Hr _ IH]; [done|]. simpl. by rewrite (whole_claims r Hr), IH.
Qed.

(** On whole records the mapping holds, under each leg code, the minimum of
    the figures stated for it. *)
Lemma leg_capacity_is_min `{Builtins} (D I : list row) (k : pyval) :
  Forall whole_record I ->
  match dict_get k (leg_capacities (build_rows D I)) with
  | Some x => is_min_of x (stated_figures D I k)
  | None => stated_figures D I k = []
  end.
Proof.
  intros Hw. rewrite build_rows_caps, foldl_min_claim_get, foldl_set_entry_get.
  unfold stated_figures. rewrite <- (whole_claims_all I Hw).
  replace (match last_for k (omap direct_claim D) with
           | Some w => Some w
           | None => dict_get k []
           end) with (last_for k (omap direct_claim D))
    by by destruct (last_for k _).
  apply running_min_spec.
Qed.

(** C4, counterexample. Two direct records for one code: the capacity of the
    second is stored, although the first states a smaller one. And an
    indirect record under the headers "1st Leg AI Cap" and "2nd Leg AI
    Cap": it states 40 for its second leg B-C, which gets no entry, and as
    the build cannot read it whole, it should have contributed nothing,
    yet the mapping holds its figure for A-B. *)
Lemma C4_counterexample :
  let D := parse_sheet [direct_record "A-B" 10 100 50;
                        direct_record "A-B" 10 100 80] in
  let I := parse_sheet [indirect_record "A-C" 20 30 "A-B" 50 "B-C" 40] in
  (dict_get (VStr "A-B") (leg_capacities (@build_rows plain_builtins D [])) = Some 80 ∧
   @contributed_figures plain_builtins D [] (VStr "A-B") = [50; 80] ∧
   (is_min_of 80 [50; 80] -> False)) ∧
  (Forall (fun r => row_get r "2nd Leg AI Cap" = Some (VNum 40)) I ∧
   leg_capacities (@build_rows plain_builtins [] I) = [(VStr "A-B", 50)] ∧
   dict_get (VStr "B-C") (leg_capacities (@build_rows plain_builtins [] I)) = None ∧
   @contributed_figures plain_builtins [] I (VStr "A-B") = [] ∧
   (Forall (@whole_record plain_builtins) I -> False)).
Proof.
  split.
  - split; [reflexivity|]. split; [reflexivity|].
    intros [_ Hall]. apply Forall_cons in Hall as [Hle _].
    revert Hle. by vm_compute.
  - split; [by repeat constructor|]. do 3 (split; [reflexivity|]).
    intros Hw. apply Forall_cons in Hw as [Hw _].
    destruct Hw as [_ [c Hc]]; [by eexists|]. by vm_compute in Hc.
Qed.

(** C4 (amended). A direct record puts under its code a single-leg path
    whose ceiling is the smaller of market share and own capacity; an
    indirect record puts under its code a path with its two legs and the
    market share as ceiling; and when every indirect record is whole, the
    capacity of a leg code in the mapping is the minimum over the capacity
    of the last direct record filed under the code and every capacity claim
    an indirect record states for it (no entry when there is no such
    figure). *)
Theorem C4_build_contract `{Builtins} (D I : list row) :
  (∀ m r od c ms cap,
     read_direct r = Some (od, c, ms, cap) ->
     dict_get od (all_od_paths (direct_row m r))
     = Some {| legs := [od]; cm := c; max_allocable := py_min ms cap |}
     ∧ is_min_of (py_min ms cap) [ms; cap]) ∧
  (∀ m r od p,
     read_indirect r = Some (od, p) ->
     dict_get od (all_od_paths (indirect_row m r)) = Some p
     ∧ float_or_zero r "AI Share" = Some (max_allocable p)
     ∧ length (legs p) = 2%nat) ∧
  (Forall whole_record I ->
   ∀ k,
     match dict_get k (leg_capacities (build_rows D I)) with
     | Some x => is_min_of x (stated_figures D I k)
     | None => stated_figures D I k = []
     end).
Proof.
  split; [|split].
  - intros m r od c ms cap Hr. split.
    + rewrite direct_row_paths. unfold direct_entry. rewrite Hr. simpl.
      unfold set_entry. simpl. by rewrite dict_get_set, py_eqb_refl.
    + destruct (py_min_cases ms cap) as [[-> Hle]|[-> Hle]].
      * split; [left|]. repeat constructor; [apply Qle_refl|done].
      * split; [right; left|]. repeat constructor; [done|apply Qle_refl].
  - intros m r od p Hr. split; [|split].
    + rewrite indirect_row_paths, Hr. simpl.
      unfold set_entry. simpl. by rewrite dict_get_set, py_eqb_refl.
    + by destruct (read_indirect_inv _ _ _ Hr) as (? & ? & _ & _ & ? & _).
    + destruct (read_indirect_inv _ _ _ Hr) as (? & ? & _ & _ & _ & _ & _ & ->).
      done.
  - intros Hw k. by apply leg_capacity_is_min.
Qed.

Lemma C4_build_contract_witness :
  let D := parse_sheet shared_leg_direct in
  let I := parse_sheet shared_leg_indirect in
  @stated_figures plain_builtins D I (VStr "A-B") = [50; 50] ∧
  @stated_figures plain_builtins D I (VStr "B-C") = [40] ∧
  match dict_get (VStr "B-C") (leg_capacities (@build_rows plain_builtins D I)) with
  | Some x => is_min_of x (@stated_figures plain_builtins D I (VStr "B-C"))
  | None => @stated_figures plain_builtins D I (VStr "B-C") = []
  end.
Proof.
  split; [reflexivity|]. split; [reflexivity|].
  apply (@C4_build_contract plain_builtins).
  apply Forall_cons. split; [|constructor].
  intros _. split; by eexists.
Defined.

(** C6 (failing input). A sheet of indirect records under the headers
    "1st Leg AI Cap" and "2nd Leg AI Cap": each row lacks the column the
    loop asks for at its second leg, and yet its path is in the registry and
    its first leg's capacity in the mapping. *)
Theorem C6_indirect_row_half_stored :
  let sheet1 := [indirect_record "A-C" 20 30 "A-B" 50 "B-C" 40] in
  cap_col 1 = "2st Leg AI Cap"%string ∧
  Forall (fun r => row_get r "2st Leg AI Cap" = None) (parse_sheet sheet1) ∧
  @build plain_builtins [] sheet1
  = {| all_od_paths :=
         [(VStr "A-C",
           {| legs := [VStr "A-B"; VStr "B-C"]; cm := 20; max_allocable := 30 |})];
       leg_capacities := [(VStr "A-B", 50)] |}.
Proof. split; [reflexivity|]. split; [by repeat constructor|reflexivity]. Qed.

(** ** Variable names and the way back (C9) *)

Lemma trans_code_char c :
  code_char c = true ->
  trans_char c = (if Ascii.eqb c "-" then "_" else c)%char ∧ c ≠ "_"%char.
Proof.
  destruct c as [[] [] [] [] [] [] [] []]; vm_compute; intros; by split.
Qed.

Lemma translate_app s t : translate (s +:+ t) = translate s +:+ translate t.
Proof. induction s as [|c s IH]; simpl; [done|]. by rewrite IH. Qed.

Lemma trans_char_inj a b :
  code_char a = true -> code_char b = true ->
  trans_char a = trans_char b -> a = b.
Proof.
  intros Ha Hb. destruct (trans_code_char a Ha) as [-> Ha'].
  destruct (trans_code_char b Hb) as [-> Hb'].
  destruct (Ascii.eqb_spec a "-"), (Ascii.eqb_spec b "-"); congruence.
Qed.

Lemma prefix_translate p s :
  all_chars code_char p = true -> all_chars code_char s = true ->
  String.prefix (translate p) (translate s) = String.prefix p s.
Proof.
  revert s. induction p as [|a p IH]; intros [|b s] Hp Hs; simpl; try done.
  simpl in Hp, Hs. apply andb_prop in Hp as [Ha Hp], Hs as [Hb Hs].
  destruct (ascii_dec a b) as [->|Hne].
  - destruct (ascii_dec (trans_char b) (trans_char b)); [|done]. by apply IH.
  - destruct (ascii_dec (trans_char a) (trans_char b)) as [E|]; [|done].
    by apply trans_char_inj in E.
Qed.

Lemma occurs_translate p s :
  all_chars code_char p = true -> all_chars code_char s = true ->
  occurs (translate p) (translate s) = occurs p s.
Proof.
  intros Hp. induction s as [|b s IH]; intros Hs.
  - simpl. by destruct p.
  - cbn [occurs translate]. simpl in Hs. apply andb_prop in Hs as [Hb Hs].
    rewrite IH by done. f_equal.
    apply (prefix_translate p (String b s)); [done|]. simpl. by rewrite Hb.
Qed.

Lemma replace_absent old new s :
  occurs old s = false -> replace_from old new 0 s = s.
Proof.
  induction s as [|c s IH]; [done|]. cbn [occurs replace_from].
  intros Ho. apply orb_false_elim in Ho as [-> Ho]. by rewrite IH.
Qed.

Lemma replace_char_step a new c t :
  replace_from (String a EmptyString) new 0 (String c t)
  = if Ascii.eqb a c
    then new +:+ replace_from (String a EmptyString) new 0 t
    else String c (replace_from (String a EmptyString) new 0 t).
Proof.
  cbn [replace_from String.prefix String.length Nat.sub].
  destruct (ascii_dec a c) as [->|Hne].
  - rewrite Ascii.eqb_refl. by destruct t.
  - by destruct (Ascii.eqb_spec a c).
Qed.

Lemma replace_underscores s :
  all_chars code_char s = true -> py_replace "_" "-" (translate s) = s.
Proof.
  unfold py_replace. induction s as [|c s IH]; [done|].
  cbn [all_chars translate]. intros Hs. apply andb_prop in Hs as [Hc Hs].
  rewrite replace_char_step, IH by done.
  destruct (trans_code_char c Hc) as [-> Hc'].
  destruct (Ascii.eqb_spec c "-") as [->|Hne]; [done|].
  by destruct (Ascii.eqb_spec "_" c).
Qed.

Lemma append_cons c p t : String c p +:+ t = String c (p +:+ t).
Proof. reflexivity. Qed.

Lemma prefix_same_head c p q :
  String.prefix (String c p) (String c q) = String.prefix p q.
Proof. simpl. by destruct (ascii_dec c c). Qed.

Lemma prefix_app p t : String.prefix p (p +:+ t) = true.
Proof.
  induction p as [|c p IH]; [destruct t; reflexivity|].
  by rewrite append_cons, prefix_same_head.
Qed.

Lemma replace_skip old new p t :
  replace_from old new (String.length p) (p +:+ t) = replace_from old new 0 t.
Proof.
  induction p as [|c p IH]; [reflexivity|].
  rewrite append_cons. cbn [String.length replace_from]. apply IH.
Qed.

Lemma replace_strip_prefix c p new t :
  replace_from (String c p) new 0 (String c p +:+ t)
  = new +:+ replace_from (String c p) new 0 t.
Proof.
  rewrite append_cons. cbn [replace_from].
  rewrite <- append_cons, prefix_app.
  cbn [String.length]. rewrite Nat.sub_1_r. cbn [Nat.pred].
  by rewrite replace_skip.
Qed.

(** The code is read back unchanged from the name of its variable. *)
Lemma recover_plain_code `{Builtins} s :
  plain_code s = true -> recover_od (var_name (VStr s)) = VStr s.
Proof.
  unfold plain_code. intros Hs. apply andb_prop in Hs as [Hc Ho].
  apply negb_true_iff in Ho.
  unfold recover_od, var_name. simpl py_str. rewrite translate_app.
  change (translate "CargoTons_") with "CargoTons_"%string.
  unfold py_replace at 2. rewrite replace_strip_prefix, replace_absent.
  - change ("" +:+ translate s) with (translate s).
    by rewrite replace_underscores.
  - change "CargoTons_"%string with (translate "CargoTons-").
    by rewrite occurs_translate.
Qed.

Lemma insert_by_perm {A} (le : A -> A -> bool) x l : insert_by le x l ≡ₚ x :: l.
Proof.
  induction l as [|y l IH]; simpl; [done|].
  destruct (le x y); [done|]. rewrite IH. apply perm_swap.
Qed.

Lemma sort_by_perm {A} (le : A -> A -> bool) l : sort_by le l ≡ₚ l.
Proof.
  unfold sort_by. induction l as [|x l IH]; simpl; [done|].
  by rewrite insert_by_perm, IH.
Qed.

Lemma variables_perm `{Builtins} m :
  variables (build_lp m) ≡ₚ map fst (all_od_paths m).
Proof. apply sort_by_perm. Qed.

(** The steps a run went through when it ends with a report. *)
Lemma run_inv `{Builtins} m o rep :
  run m o = Some rep ->
  ∃ rows records,
    od_summary_loop m (varValue o) (variables (build_lp m)) = Some rows ∧
    leg_records m rows = Some records ∧
    classify m records = Some (df_leg_detail rep) ∧
    affine_value (varValue o) (lp_objective (build_lp m)) 0 = Some (total_profit rep) ∧
    df_od_summary rep = rows.
Proof.
  unfold run. intros Hrun. repeat bind_case Hrun.
  injection Hrun as <-. by eexists _, _.
Qed.

(** When every variable name leads back to its key, the summary lists the
    variables with positive value, in the order of [prob.variables()]. *)
Lemma od_summary_loop_keys `{Builtins} m o vars rows :
  Forall (fun v => recover_od (var_name v) = v) vars ->
  od_summary_loop m (varValue o) vars = Some rows ->
  map od_pair rows = List.filter (has_tonnage o) vars.
Proof.
  intros Hv. revert rows. induction Hv as [|v vars Hv _ IH]; intros rows; simpl.
  - by intros [= <-].
  - unfold has_tonnage at 1. destruct (varValue o v) as [t|]; simpl; [|done].
    destruct (Qltb 0 t); [|by apply IH].
    destruct (dict_get _ _); simpl; [|done].
    destruct (od_summary_loop _ _ vars) as [rows'|]; simpl; [|done].
    intros [= <-]. simpl. rewrite Hv. f_equal. by apply IH.
Qed.

(** C9 (amended). When every OD code of the registry is a string of
    letters, digits and hyphens in which the text "CargoTons-" does not
    occur, the OD codes of the summary rows are the registry keys of the
    variables with positive value; and there is an input, an OD code with a
    space that receives positive tonnage, whose recovered key is not in the
    registry and whose run shows no table. *)
Theorem C9_od_code_round_trip `{Builtins} (m : model) (o : lp_outcome) (rep : report) :
  Forall (fun e : pyval * od_path => ∃ s, e.1 = VStr s ∧ plain_code s = true)
         (all_od_paths m) ->
  run m o = Some rep ->
  map od_pair (df_od_summary rep)
  = List.filter (has_tonnage o) (variables (build_lp m)) ∧
  (has_tonnage space_code_outcome (VStr "A B") = true ∧
   dict_get (recover_od (@var_name plain_builtins (VStr "A B")))
            (all_od_paths (@build plain_builtins space_code_sheet [])) = None ∧
   @app plain_builtins space_code_sheet [] space_code_outcome = None).
Proof.
  intros Hkeys Hrun. split; [|by vm_compute].
  destruct (run_inv _ _ _ Hrun) as (rows & _ & Hsum & _ & _ & _ & ->).
  apply (od_summary_loop_keys m o _ _); [|done].
  rewrite Forall_forall. intros v Hv.
  rewrite variables_perm in Hv. apply list_elem_of_fmap in Hv as ([k p] & -> & Hin).
  rewrite Forall_forall in Hkeys. destruct (Hkeys _ Hin) as (s & E & Hs).
  simpl in E. subst k. simpl. by apply recover_plain_code.
Qed.

Lemma C9_od_code_round_trip_witness :
  let m := @build plain_builtins shared_leg_direct shared_leg_indirect in
  ∃ rep,
    @run plain_builtins m shared_leg_outcome = Some rep ∧
    map od_pair (df_od_summary rep) = [VStr "A-B"; VStr "A-C"].
Proof.
  eexists. split; [reflexivity|].
  apply (@C9_od_code_round_trip plain_builtins
           (@build plain_builtins shared_leg_direct shared_leg_indirect)
           shared_leg_outcome).
  - repeat constructor; eexists; (split; [reflexivity|by vm_compute]).
  - reflexivity.
Defined.

(** C9, counterexample. An OD code of letters, a digit and a hyphen that is
    not read back: the
    text of the prefix is cut out of it as well, and the run fails. *)
Lemma C9_counterexample :
  all_chars code_char "CargoTons-1" = true ∧
  has_tonnage prefix_code_outcome (VStr "CargoTons-1") = true ∧
  recover_od (@var_name plain_builtins (VStr "CargoTons-1")) = VStr "1" ∧
  @app plain_builtins prefix_code_sheet [] prefix_code_outcome = None.
Proof. by vm_compute. Qed.

(** ** The sort of the classification *)

Lemma Qltb_true a b : Qltb a b = true <-> a < b.
Proof.
  unfold Qltb. rewrite negb_true_iff. split.
  - intros E. destruct (Qlt_le_dec a b) as [|Hle]; [done|].
    apply Qle_bool_iff in Hle. congruence.
  - intros Hlt. destruct (Qle_bool b a) eqn:E; [|done].
    apply Qle_bool_iff in E. by apply Qlt_not_le in Hlt.
Qed.

Lemma Qltb_false a b : Qltb a b = false <-> b <= a.
Proof.
  unfold Qltb. rewrite negb_false_iff. apply Qle_bool_iff.
Qed.

Lemma before_true a b :
  before a b = true <->
  ranks_ahead a.1.2 a.2 b.1.2 b.2 ∨ ties a.1.2 a.2 b.1.2 b.2.
Proof.
  destruct a as [[i c] d], b as [[j c'] d']. unfold before, ranks_ahead, ties. simpl.
  destruct (Qltb c' c) eqn:E1.
  - apply Qltb_true in E1. split; [by left; left|done].
  - apply Qltb_false in E1. destruct (Qeq_bool c c') eqn:E2.
    + apply Qeq_bool_iff in E2. split.
      * destruct d, d'; simpl; try done; intros _; [by right|left; by right|by right].
      * intros [[Hlt|(_ & -> & ->)]|[_ ->]]; [|done|by destruct d'].
        rewrite E2 in Hlt. by apply Qlt_irrefl in Hlt.
    + apply Qeq_bool_neq in E2. split; [done|].
      intros [[Hlt|(He & _)]|[He _]]; [|done|done].
      by apply Qlt_not_le in Hlt.
Qed.

Lemma before_false a b :
  before a b = false -> ranks_ahead b.1.2 b.2 a.1.2 a.2.
Proof.
  destruct a as [[i c] d], b as [[j c'] d']. unfold before, ranks_ahead. simpl.
  destruct (Qltb c' c) eqn:E1; [done|]. apply Qltb_false in E1.
  destruct (Qeq_bool c c') eqn:E2.
  - apply Qeq_bool_iff in E2. destruct d, d'; simpl; try done.
    intros _. right. by rewrite E2.
  - apply Qeq_bool_neq in E2. intros _. left.
    apply Qle_lteq in E1 as [|]; done.
Qed.

Lemma key_lt_trans a b c : key_lt a b -> key_lt b c -> key_lt a c.
Proof.
  destruct a as [[i ca] da], b as [[j cb] db], c as [[k cc] dc].
  unfold key_lt, ranks_ahead, ties. simpl.
  intros [[H1|(H1 & -> & ->)]|[[H1 ->] Hi]] [[H2|(H2 & E2 & ->)]|[[H2 ->] Hj]].
  - left; left. by eapply Qlt_trans.
  - left; left. by rewrite <- H2.
  - left; left. by rewrite <- H2.
  - left; left. by rewrite H1.
  - done.
  - left; right. by rewrite H1, H2.
  - left; left. by rewrite H1.
  - left; right. by rewrite H1, H2.
  - right. split; [by rewrite H1, H2|lia].
Qed.

Lemma key_lt_irrefl a : ¬ key_lt a a.
Proof.
  destruct a as [[i c] d]. unfold key_lt, ranks_ahead, ties. simpl.
  intros [[H1|(_ & -> & ?)]|[_ ?]]; [by apply Qlt_irrefl in H1|done|lia].
Qed.

(** Two rows of a group are always ordered by [key_lt], one way or the
    other. *)
Lemma key_lt_total a b : a.1.1 ≠ b.1.1 -> key_lt a b ∨ key_lt b a.
Proof.
  destruct a as [[i c] d], b as [[j c'] d']. unfold key_lt, ranks_ahead, ties. simpl.
  intros Hne. destruct (Q_dec c c') as [[Hlt|Hgt]|He].
  - right; left; by left.
  - left; left; by left.
  - destruct d, d'.
    + destruct (decide (i < j)%nat); [left|right]; right; (split; [done|lia]).
    + left; left; by right.
    + right; left; right. by rewrite He.
    + destruct (decide (i < j)%nat); [left|right]; right; (split; [done|lia]).
Qed.

Lemma insert_by_sorted x l :
  StronglySorted key_lt l ->
  Forall (fun y : sort_key => (x.1.1 < y.1.1)%nat) l ->
  StronglySorted key_lt (insert_by before x l).
Proof.
  induction 1 as [|y l Hs IH Hy]; intros Hx; simpl.
  - repeat constructor.
  - apply Forall_cons in Hx as [Hxy Hx]. destruct (before x y) eqn:E.
    + assert (Hlt : key_lt x y).
      { apply before_true in E as [E|E]; [by left|by right]. }
      constructor; [by constructor|]. constructor; [done|].
      eapply Forall_impl; [exact Hy|]. intros z Hz. by eapply key_lt_trans.
    + constructor; [by apply IH|].
      rewrite insert_by_perm. constructor; [|done].
      left. by apply before_false.
Qed.

Lemma sort_by_sorted l :
  StronglySorted (fun a b : sort_key => (a.1.1 < b.1.1)%nat) l ->
  StronglySorted key_lt (sort_by before l).
Proof.
  unfold sort_by. induction 1 as [|x l Hs IH Hx]; simpl; [constructor|].
  apply insert_by_sorted; [done|].
  fold (sort_by before l). by rewrite sort_by_perm.
Qed.

(** In a list sorted by [key_lt], positions and the order agree. *)
Lemma sorted_positions l p q a b :
  StronglySorted key_lt l ->
  l !! p = Some a -> l !! q = Some b ->
  ((p < q)%nat <-> key_lt a b).
Proof.
  intros Hs Hp Hq.
  assert (Hfwd : ∀ p q a b, l !! p = Some a -> l !! q = Some b ->
                            (p < q)%nat -> key_lt a b).
  { clear p q a b Hp Hq. induction Hs as [|y l Hs IH Hy]; intros p q a b Hp Hq Hlt.
    - done.
    - destruct q as [|q]; [lia|]. simpl in Hq. destruct p as [|p]; simpl in Hp.
      + injection Hp as <-. rewrite Forall_forall in Hy. apply Hy.
        by eapply list_elem_of_lookup_2.
      + eapply IH; eauto. lia. }
  split; [by eapply Hfwd|].
  intros Hab. destruct (lt_eq_lt_dec p q) as [[Hlt | ->] | Hgt]; [done| |].
  - rewrite Hp in Hq. injection Hq as <-. by apply key_lt_irrefl in Hab.
  - pose proof (Hfwd _ _ _ _ Hq Hp Hgt) as Hba.
    destruct (key_lt_irrefl a). by eapply key_lt_trans.
Qed.

(** ** Groups of the leg breakdown *)

Lemma group_indices_from tbl leg : group_indices tbl leg = indices_from 0 tbl leg.
Proof.
  unfold group_indices.
  change (imap pair tbl) with (imap (fun i (x : leg_row) => ((0 + i)%nat, x)) tbl).
  generalize 0%nat. induction tbl as [|r tbl IH]; intros k; [done|].
  rewrite imap_cons. cbn [List.filter indices_from snd].
  rewrite Nat.add_0_r.
  rewrite (imap_ext _ (fun i (x : leg_row) => ((S k + i)%nat, x)))
    by (intros; unfold compose; f_equal; lia).
  destruct (py_eqb (flight_leg r) leg); cbn [map fst]; [f_equal|]; apply IH.
Qed.

Lemma elem_of_indices_from k tbl leg i :
  i ∈ indices_from k tbl leg <->
  ∃ j r, i = (k + j)%nat ∧ tbl !! j = Some r ∧ py_eqb (flight_leg r) leg = true.
Proof.
  revert k. induction tbl as [|r tbl IH]; intros k; simpl.
  - split; [by intros ?%elem_of_nil|]. by intros (j & r & _ & ? & _).
  - destruct (py_eqb (flight_leg r) leg) eqn:E.
    + rewrite elem_of_cons, IH. split.
      * intros [->|(j & r' & -> & Hj & Hr)].
        -- exists 0%nat, r. split; [lia|done].
        -- exists (S j), r'. split; [lia|done].
      * intros ([|j] & r' & -> & Hj & Hr).
        -- left. lia.
        -- right. exists j, r'. split; [lia|done].
    + rewrite IH. split.
      * intros (j & r' & -> & Hj & Hr). exists (S j), r'. split; [lia|done].
      * intros ([|j] & r' & -> & Hj & Hr).
        -- simpl in Hj. injection Hj as <-. congruence.
        -- exists j, r'. split; [lia|done].
Qed.

Lemma elem_of_group_indices tbl leg i :
  i ∈ group_indices tbl leg <->
  ∃ r, tbl !! i = Some r ∧ py_eqb (flight_leg r) leg = true.
Proof.
  rewrite group_indices_from, elem_of_indices_from. split.
  - intros (j & r & -> & ?). by exists r.
  - intros (r & ?). by exists i, r.
Qed.

Lemma indices_from_sorted k tbl leg :
  StronglySorted lt (indices_from k tbl leg).
Proof.
  revert k. induction tbl as [|r tbl IH]; intros k; simpl; [constructor|].
  destruct (py_eqb (flight_leg r) leg); [|done].
  constructor; [done|]. rewrite Forall_forall. intros i Hi.
  apply elem_of_indices_from in Hi as (j & _ & -> & _). lia.
Qed.

Lemma indices_from_static k t t' leg :
  map static t = map static t' -> indices_from k t leg = indices_from k t' leg.
Proof.
  revert k t'. induction t as [|r t IH]; intros k [|r' t']; simpl; try done.
  intros [= E1 _ _ _ _ Et]. rewrite E1, (IH (S k) t' Et). done.
Qed.

Lemma indices_from_congr k t leg leg' :
  py_eqb leg leg' = true -> indices_from k t leg = indices_from k t leg'.
Proof.
  intros E. revert k. induction t as [|r t IH]; intros k; simpl; [done|].
  by rewrite (py_eqb_congr_r _ _ (flight_leg r) E), IH.
Qed.

Lemma indices_from_rows k tbl leg :
  Forall2 (fun i r => ∃ j, i = (k + j)%nat ∧ tbl !! j = Some r)
          (indices_from k tbl leg) (group_rows tbl leg).
Proof.
  revert k. induction tbl as [|r tbl IH]; intros k; simpl; [constructor|].
  assert (Hrest : Forall2 (fun i r0 => ∃ j, i = (k + j)%nat ∧ (r :: tbl) !! j = Some r0)
                          (indices_from (S k) tbl leg) (group_rows tbl leg)).
  { eapply Forall2_impl; [apply IH|]. intros i r0 (j & -> & Hj).
    exists (S j). split; [lia|done]. }
  destruct (py_eqb (flight_leg r) leg); [|done].
  constructor; [|done]. exists 0%nat. split; [lia|done].
Qed.

Lemma group_indices_rows tbl leg :
  Forall2 (fun i r => tbl !! i = Some r) (group_indices tbl leg) (group_rows tbl leg).
Proof.
  rewrite group_indices_from. eapply Forall2_impl; [apply indices_from_rows|].
  by intros i r (j & -> & Hj).
Qed.

(** ** Writing priorities *)

Lemma with_priority_static l k r r' :
  static r = static r' -> with_priority l k r = with_priority l k r'.
Proof. unfold static, with_priority. by intros [= -> -> -> -> ->]. Qed.

Lemma set_priority_static i l k t : map static (set_priority i l k t) = map static t.
Proof.
  unfold set_priority. revert i. induction t as [|r t IH]; intros [|i]; simpl; try done.
  f_equal. apply IH.
Qed.

Lemma set_priority_lookup i l k t :
  set_priority i l k t !! i = with_priority l k <$> t !! i.
Proof. unfold set_priority. apply list_lookup_alter_eq. Qed.

Lemma set_priority_lookup_ne i j l k t :
  i ≠ j -> set_priority i l k t !! j = t !! j.
Proof. unfold set_priority. by apply list_lookup_alter_ne. Qed.

Lemma foldl_write_static top t ws :
  map static (foldl (write_rank top) t ws) = map static t.
Proof.
  revert t. induction ws as [|w ws IH]; intros t; simpl; [done|].
  rewrite IH. apply set_priority_static.
Qed.

Lemma foldl_write_untouched top t ws j :
  Forall (fun w : nat * sort_key => w.2.1.1 ≠ j) ws ->
  foldl (write_rank top) t ws !! j = t !! j.
Proof.
  intros Hws. revert t. induction Hws as [|w ws Hw _ IH]; intros t; simpl; [done|].
  rewrite IH. by apply set_priority_lookup_ne.
Qed.

Lemma foldl_write_touched top t ws w :
  NoDup (map (fun w : nat * sort_key => w.2.1.1) ws) ->
  w ∈ ws ->
  foldl (write_rank top) t ws !! w.2.1.1
  = with_priority (label (Qeq_bool w.2.1.2 top) w.2.2) w.1 <$> t !! w.2.1.1.
Proof.
  intros Hnd Hin. revert t. induction ws as [|w0 ws IH]; intros t.
  - by apply elem_of_nil in Hin.
  - simpl in Hnd. apply NoDup_cons in Hnd as [Hnotin Hnd]. simpl.
    apply elem_of_cons in Hin as [->|Hin].
    + rewrite foldl_write_untouched.
      * apply set_priority_lookup.
      * rewrite Forall_forall. intros w' Hw' E. apply Hnotin.
        apply list_elem_of_fmap. exists w'. by split.
    + rewrite IH by done. unfold write_rank at 1.
      rewrite set_priority_lookup_ne; [done|].
      intros E. apply Hnotin. apply list_elem_of_fmap. exists w. by split.
Qed.

Lemma enumerate1_lookup {A} (l : list A) p x :
  l !! p = Some x -> (S p, x) ∈ enumerate1 l.
Proof.
  intros Hp. unfold enumerate1. apply elem_of_lookup_imap. by exists p, x.
Qed.

Lemma enumerate1_labels (l : list sort_key) :
  map (fun w : nat * sort_key => w.2.1.1) (enumerate1 l)
  = map (fun k : sort_key => k.1.1) l.
Proof.
  unfold enumerate1. change S with (fun i => (1 + i)%nat). generalize 1%nat.
  induction l as [|x l IH]; intros n; [done|].
  rewrite imap_cons. simpl. f_equal.
  rewrite <- (IH (S n)). f_equal. apply imap_ext. intros. unfold compose. f_equal. lia.
Qed.

(** The rows of [sorted_group] before sorting carry the labels of the group. *)
Lemma sort_keys_labels m t group keys :
  sort_keys m t group = Some keys ->
  map (fun k : sort_key => k.1.1) keys = group.
Proof.
  unfold sort_keys. intros Hk. apply mapM_Some_1 in Hk.
  induction Hk as [|i k group keys Hik _ IH]; [done|]. simpl. rewrite IH. f_equal.
  destruct (t !! i); simpl in Hik; [|done].
  destruct (is_direct m _); simpl in Hik; [|done]. by injection Hik as <-.
Qed.

Lemma group_indices_nodup t leg : NoDup (group_indices t leg).
Proof.
  rewrite group_indices_from.
  pose proof (indices_from_sorted 0 t leg) as Hs.
  induction Hs as [|i l _ IH Hi]; constructor; [|done].
  intros Hin. rewrite Forall_forall in Hi. specialize (Hi _ Hin). lia.
Qed.

Lemma classify_group_spec m t leg t' :
  classify_group m t leg = Some t' ->
  map static t' = map static t ∧
  (∀ j, j ∉ group_indices t leg -> t' !! j = t !! j) ∧
  group_done m t t' leg.
Proof.
  unfold classify_group, group_done.
  assert (Hone : ∀ idx, group_indices t leg = [idx] ->
            Some (set_priority idx "Only OD" 1 t) = Some t' ->
            map static t' = map static t ∧
            (∀ j, j ∉ [idx] -> t' !! j = t !! j) ∧
            t' !! idx = with_priority "Only OD" 1 <$> t !! idx).
  { intros idx _ [= <-]. split; [apply set_priority_static|]. split.
    - intros j Hj. apply set_priority_lookup_ne. intros ->. apply Hj. by left.
    - apply set_priority_lookup. }
  assert (Hmany : ∀ group, group_indices t leg = group ->
            (sort_keys m t group ≫= fun keys =>
               Some (foldl (write_rank (group_top keys)) t
                           (enumerate1 (sort_by before keys)))) = Some t' ->
            map static t' = map static t ∧
            (∀ j, j ∉ group -> t' !! j = t !! j) ∧
            ∃ keys, sort_keys m t group = Some keys ∧
              ∀ p key, sort_by before keys !! p = Some key ->
                t' !! key.1.1
                = with_priority (label (Qeq_bool key.1.2 (group_top keys)) key.2) (S p)
                    <$> t !! key.1.1).
  { intros group Hg Hrun.
    destruct (sort_keys m t group) as [keys|] eqn:Hkeys; simpl in Hrun; [|done].
    injection Hrun as <-.
    pose proof (sort_keys_labels _ _ _ _ Hkeys) as Hlab.
    assert (Hperm : map (fun k : sort_key => k.1.1) (sort_by before keys) ≡ₚ group).
    { rewrite <- Hlab. apply Permutation_map, sort_by_perm. }
    split; [apply foldl_write_static|]. split.
    - intros j Hj. apply foldl_write_untouched. rewrite Forall_forall.
      intros w Hw E. apply Hj. rewrite <- Hperm, <- enumerate1_labels.
      apply list_elem_of_fmap. exists w. by split.
    - exists keys. split; [done|]. intros p key Hp.
      apply (foldl_write_touched _ _ _ (S p, key)).
      + rewrite enumerate1_labels, Hperm, <- Hg. apply group_indices_nodup.
      + by apply enumerate1_lookup. }
  destruct (group_indices t leg) as [|i [|i' group]] eqn:Hg; intros Hrun.
  - by apply Hmany.
  - by apply Hone.
  - by apply Hmany.
Qed.

(** ** The loop over the groups *)

Lemma elem_of_List_filter {A} (f : A -> bool) l x :
  x ∈ List.filter f l <-> x ∈ l ∧ f x = true.
Proof. rewrite !list_elem_of_In. apply filter_In. Qed.

Lemma strongly_sorted_List_filter {A} (R : relation A) (f : A -> bool) l :
  StronglySorted R l -> StronglySorted R (List.filter f l).
Proof.
  induction 1 as [|x l _ IH Hx]; simpl; [constructor|].
  destruct (f x); [|done]. constructor; [done|].
  rewrite Forall_forall in *. intros y Hy. apply Hx.
  by apply elem_of_List_filter in Hy as [? _].
Qed.

Lemma distinct_keys_pairwise l :
  StronglySorted (fun a b => py_eqb a b = false) (distinct_keys l).
Proof.
  induction l as [|k l IH]; simpl; [constructor|].
  constructor; [by apply strongly_sorted_List_filter|].
  rewrite Forall_forall. intros y Hy.
  apply elem_of_List_filter in Hy as [_ Hy]. by apply negb_true_iff in Hy.
Qed.

Lemma distinct_keys_cover l x :
  x ∈ l -> ∃ k, k ∈ distinct_keys l ∧ py_eqb k x = true.
Proof.
  induction l as [|k l IH]; [by intros ?%elem_of_nil|].
  intros [->|Hx]%elem_of_cons; simpl.
  - exists k. split; [left|apply py_eqb_refl].
  - destruct (IH Hx) as (k' & Hk' & E). destruct (py_eqb k k') eqn:E'.
    + exists k. split; [left|]. by eapply py_eqb_trans.
    + exists k'. split; [|done]. right. apply elem_of_List_filter.
      split; [done|]. by rewrite E'.
Qed.

Lemma group_indices_static t t' leg :
  map static t = map static t' -> group_indices t leg = group_indices t' leg.
Proof. intros E. rewrite !group_indices_from. by apply indices_from_static. Qed.

Lemma group_indices_congr t leg leg' :
  py_eqb leg leg' = true -> group_indices t leg = group_indices t leg'.
Proof. intros E. rewrite !group_indices_from. by apply indices_from_congr. Qed.

Lemma lookup_static t t' i :
  map static t = map static t' -> static <$> t !! i = static <$> t' !! i.
Proof.
  intros E. change (static <$> t = static <$> t') in E.
  by rewrite <- !list_lookup_fmap, E.
Qed.

Lemma with_priority_lookup_static l k t t' i :
  map static t = map static t' ->
  with_priority l k <$> t !! i = with_priority l k <$> t' !! i.
Proof.
  intros E. pose proof (lookup_static _ _ i E) as Hi.
  destruct (t !! i) as [r|], (t' !! i) as [r'|]; simpl in *; try done.
  f_equal. apply with_priority_static. congruence.
Qed.

Lemma sort_keys_static m t t' group :
  map static t = map static t' -> sort_keys m t group = sort_keys m t' group.
Proof.
  intros E. unfold sort_keys. apply mapM_ext. intros i.
  pose proof (lookup_static _ _ i E) as Hi.
  destruct (t !! i) as [r|], (t' !! i) as [r'|]; simpl in *; try done.
  injection Hi as E1 E2 E3 _ _. by rewrite E2, E3.
Qed.

Lemma group_done_static m t t0 t' leg :
  map static t = map static t0 -> group_done m t t' leg -> group_done m t0 t' leg.
Proof.
  intros E. unfold group_done.
  rewrite (group_indices_static t t0 leg E).
  destruct (group_indices t0 leg) as [|i [|i' group]].
  - intros (keys & Hk & Hrows). rewrite (sort_keys_static m t t0 _ E) in Hk.
    exists keys. split; [done|]. intros p key Hp.
    rewrite (Hrows p key Hp). by apply with_priority_lookup_static.
  - intros ->. by apply with_priority_lookup_static.
  - intros (keys & Hk & Hrows). rewrite (sort_keys_static m t t0 _ E) in Hk.
    exists keys. split; [done|]. intros p key Hp.
    rewrite (Hrows p key Hp). by apply with_priority_lookup_static.
Qed.

Lemma group_done_agree m t0 t1 t2 leg :
  (∀ j, j ∈ group_indices t0 leg -> t2 !! j = t1 !! j) ->
  group_done m t0 t1 leg -> group_done m t0 t2 leg.
Proof.
  unfold group_done. intros Hagree.
  assert (Hmany : ∀ group, group_indices t0 leg = group ->
    (∃ keys, sort_keys m t0 group = Some keys ∧
       ∀ p key, sort_by before keys !! p = Some key ->
         t1 !! key.1.1
         = with_priority (label (Qeq_bool key.1.2 (group_top keys)) key.2) (S p)
             <$> t0 !! key.1.1) ->
    (∃ keys, sort_keys m t0 group = Some keys ∧
       ∀ p key, sort_by before keys !! p = Some key ->
         t2 !! key.1.1
         = with_priority (label (Qeq_bool key.1.2 (group_top keys)) key.2) (S p)
             <$> t0 !! key.1.1)).
  { intros group Hg (keys & Hk & Hrows). exists keys. split; [done|].
    intros p key Hp. rewrite <- (Hrows p key Hp). apply Hagree.
    rewrite Hg, <- (sort_keys_labels _ _ _ _ Hk), <- (sort_by_perm before keys).
    apply list_elem_of_fmap. exists key. split; [done|].
    by eapply list_elem_of_lookup_2. }
  destruct (group_indices t0 leg) as [|i [|i' group]] eqn:Hg.
  - by apply Hmany.
  - intros <-. apply Hagree. rewrite ?Hg. by left.
  - by apply Hmany.
Qed.

Lemma classify_fold_spec m t0 ks t' :
  StronglySorted (fun a b => py_eqb a b = false) ks ->
  foldl (classify_step m) (Some t0) ks = Some t' ->
  map static t' = map static t0 ∧
  (∀ j r, t0 !! j = Some r ->
          Forall (fun k => py_eqb k (flight_leg r) = false) ks -> t' !! j = Some r) ∧
  (∀ k, k ∈ ks -> group_done m t0 t' k).
Proof.
  revert t'. induction ks as [|k ks IH] using rev_ind; intros t' Hks Hrun.
  - simpl in Hrun. injection Hrun as <-. split; [done|]. split; [done|].
    by intros k ?%elem_of_nil.
  - rewrite foldl_app in Hrun. simpl in Hrun.
    apply StronglySorted_app in Hks as (Hne & Hks & _).
    destruct (foldl (classify_step m) (Some t0) ks) as [t1|]; simpl in Hrun; [|done].
    destruct (IH t1 Hks eq_refl) as (Hst1 & Hun1 & Hdone1).
    destruct (classify_group_spec _ _ _ _ Hrun) as (Hst & Hun & Hdone).
    rewrite (group_indices_static t1 t0 k Hst1) in Hun.
    split; [congruence|]. split.
    + intros j r Hj Hall. apply Forall_app in Hall as [Hall Hk].
      apply Forall_cons in Hk as [Hk _].
      rewrite Hun; [by apply Hun1|].
      intros (r' & Hr' & E)%elem_of_group_indices.
      rewrite Hj in Hr'. injection Hr' as <-. rewrite py_eqb_sym in E. congruence.
    + intros k' [Hk'|Hk']%elem_of_app.
      * apply (group_done_agree m t0 t1); [|by apply Hdone1].
        intros j (r & Hr & E)%elem_of_group_indices. apply Hun.
        intros (r' & Hr' & E')%elem_of_group_indices.
        rewrite Hr in Hr'. injection Hr' as <-.
        assert (py_eqb k' k = false) as Hkk by (apply Hne; [done|by left]).
        rewrite py_eqb_sym in E.
        pose proof (py_eqb_trans _ _ _ E E'). congruence.
      * apply list_elem_of_singleton in Hk' as ->.
        by apply (group_done_static m t1 t0).
Qed.

(** After the classification every group carries what its iteration wrote,
    and the other columns are as before. *)
Lemma classify_spec m t0 t' :
  classify m t0 = Some t' ->
  map static t' = map static t0 ∧ ∀ leg, group_done m t0 t' leg.
Proof.
  unfold classify. intros Hrun.
  assert (Hfold : foldl (classify_step m) (Some t0)
                        (distinct_keys (map flight_leg t0)) = Some t')
    by by destruct t0.
  destruct (classify_fold_spec _ _ _ _ (distinct_keys_pairwise _) Hfold)
    as (Hst & _ & Hdone).
  split; [done|]. intros leg.
  destruct (group_indices t0 leg) as [|i group] eqn:Hg.
  - unfold group_done. rewrite Hg. exists []. split; [done|].
    by intros p key ?.
  - assert (Hi : i ∈ group_indices t0 leg) by (rewrite Hg; by left).
    apply elem_of_group_indices in Hi as (r & Hr & E).
    destruct (distinct_keys_cover (map flight_leg t0) (flight_leg r)) as (k & Hk & Ek).
    { apply list_elem_of_fmap. exists r. split; [done|]. by eapply list_elem_of_lookup_2. }
    specialize (Hdone k Hk). unfold group_done in *.
    rewrite (group_indices_congr t0 leg k); [exact Hdone|].
    rewrite py_eqb_sym. by eapply py_eqb_trans.
Qed.

(** ** What a classified group looks like *)

Lemma sort_keys_rows m t group keys :
  sort_keys m t group = Some keys ->
  Forall2 (fun i (k : sort_key) =>
             k.1.1 = i ∧
             ∃ r, t !! i = Some r ∧ leg_od_cm r = k.1.2 ∧
                  is_direct m (od_contributor r) = Some k.2)
          group keys.
Proof.
  unfold sort_keys. intros Hk. apply mapM_Some_1 in Hk.
  eapply Forall2_impl; [exact Hk|]. intros i k Hik. simpl in Hik.
  destruct (t !! i) as [r|]; simpl in Hik; [|done].
  destruct (is_direct m (od_contributor r)) as [d|] eqn:Hd; simpl in Hik; [|done].
  injection Hik as <-. split; [done|]. by exists r.
Qed.

Lemma max_cm_spec first rest :
  max_cm first rest ∈ first :: rest ∧
  Forall (fun c => c <= max_cm first rest) (first :: rest).
Proof.
  unfold max_cm. revert first. induction rest as [|x rest IH]; intros first; simpl.
  - split; [left|]. repeat constructor. apply Qle_refl.
  - destruct (Qltb first x) eqn:E.
    + apply Qltb_true in E. destruct (IH x) as [Hin Hall]. split.
      * by right.
      * apply Forall_cons in Hall as [Hx Hall].
        constructor; [|by constructor].
        apply Qlt_le_weak. by eapply Qlt_le_trans.
    + apply Qltb_false in E. destruct (IH first) as [Hin Hall]. split.
      * apply elem_of_cons in Hin as [->|Hin]; [left|by do 2 right].
      * apply Forall_cons in Hall as [Hf Hall].
        constructor; [done|]. constructor; [by eapply Qle_trans|done].
Qed.

Lemma group_top_spec keys :
  keys ≠ [] ->
  group_top keys ∈ map (fun k : sort_key => k.1.2) keys ∧
  Forall (fun c => c <= group_top keys) (map (fun k : sort_key => k.1.2) keys).
Proof. destruct keys as [|k ks]; [done|]. intros _. apply max_cm_spec. Qed.

(** Equal to the top CM, or: not below any CM of the group. *)
Lemma top_cm_highest (cms : list Q) top x :
  top ∈ cms -> Forall (fun c => c <= top) cms -> x ∈ cms ->
  Qeq_bool x top = forallb (fun c => Qle_bool c x) cms.
Proof.
  intros Htop Hall Hx. rewrite Forall_forall in Hall.
  destruct (forallb _ cms) eqn:E.
  - apply Qeq_bool_iff. rewrite forallb_forall in E.
    apply Qle_antisym; [by apply Hall|].
    apply Qle_bool_iff, E. by apply list_elem_of_In.
  - destruct (Qeq_bool x top) eqn:E'; [|done]. apply Qeq_bool_iff in E'.
    assert (forallb (fun c => Qle_bool c x) cms = true); [|congruence].
    apply forallb_forall. intros c Hc. apply Qle_bool_iff. rewrite E'.
    by apply Hall, list_elem_of_In.
Qed.

Lemma is_highest_cms tbl r :
  is_highest tbl r
  = forallb (fun c => Qle_bool c (leg_od_cm r))
            (map leg_od_cm (group_rows tbl (flight_leg r))).
Proof.
  unfold is_highest. induction (group_rows tbl (flight_leg r)) as [|r' l IH]; [done|].
  simpl. by rewrite IH.
Qed.

Lemma label_reference h d : label h d = reference_label h d.
Proof. by destruct h, d. Qed.

(** The CM column of a group is the CM column of [sorted_group] before
    sorting. *)
Lemma group_cms m t leg keys :
  sort_keys m t (group_indices t leg) = Some keys ->
  map leg_od_cm (group_rows t leg) = map (fun k : sort_key => k.1.2) keys.
Proof.
  intros Hk. apply sort_keys_rows in Hk.
  pose proof (group_indices_rows t leg) as Hrows.
  revert Hk. generalize keys.
  induction Hrows as [|i r G rows Hir _ IH]; intros ks Hk.
  - by apply Forall2_nil_inv_l in Hk as ->.
  - apply Forall2_cons_inv_l in Hk as (k & ks' & (_ & r' & Hr' & Hcm & _) & Hk & ->).
    simpl. rewrite Hir in Hr'. injection Hr' as <-. rewrite Hcm. f_equal. by apply IH.
Qed.

Lemma group_rows_length t leg :
  length (group_rows t leg) = length (group_indices t leg).
Proof. symmetry. eapply Forall2_length, group_indices_rows. Qed.

Lemma elem_of_group_rows t leg r :
  r ∈ group_rows t leg -> ∃ i, t !! i = Some r ∧ py_eqb (flight_leg r) leg = true.
Proof.
  intros (Hin & E)%elem_of_List_filter.
  apply list_elem_of_lookup_1 in Hin as [i Hi]. by exists i.
Qed.

Lemma sort_keys_label_sorted m t leg keys :
  sort_keys m t (group_indices t leg) = Some keys ->
  StronglySorted (fun a b : sort_key => (a.1.1 < b.1.1)%nat) keys.
Proof.
  intros Hk. apply sort_keys_labels in Hk.
  pose proof (indices_from_sorted 0 t leg) as Hs.
  rewrite <- group_indices_from, <- Hk in Hs. clear Hk.
  induction keys as [|k keys IH]; [constructor|].
  simpl in Hs. apply StronglySorted_cons in Hs as [Hk Hs].
  constructor; [by apply IH|].
  rewrite Forall_forall in Hk. rewrite Forall_forall. intros k' Hk'. apply Hk.
  apply list_elem_of_fmap. by exists k'.
Qed.

(** A group that does not consist of a single row: its rows, in the order of
    [sorted_group], carry the labels of the loop body and the ranks 1, 2, ... *)
Lemma classified_many m t0 t' leg :
  classify m t0 = Some t' ->
  length (group_indices t0 leg) ≠ 1%nat ->
  ∃ keys,
    sort_keys m t0 (group_indices t0 leg) = Some keys ∧
    StronglySorted key_lt (sort_by before keys) ∧
    ∀ p key, sort_by before keys !! p = Some key ->
      ∃ r, t' !! key.1.1 = Some r ∧
           py_eqb (flight_leg r) leg = true ∧
           leg_od_cm r = key.1.2 ∧
           is_direct m (od_contributor r) = Some key.2 ∧
           priority_type r = label (Qeq_bool key.1.2 (group_top keys)) key.2 ∧
           fill_priority_rank r = Some (S p).
Proof.
  intros Hrun Hlen. destruct (classify_spec _ _ _ Hrun) as [Hst Hdone].
  specialize (Hdone leg). unfold group_done in Hdone.
  assert (Hmany : ∃ keys, sort_keys m t0 (group_indices t0 leg) = Some keys ∧
            ∀ p key, sort_by before keys !! p = Some key ->
              t' !! key.1.1
              = with_priority (label (Qeq_bool key.1.2 (group_top keys)) key.2) (S p)
                  <$> t0 !! key.1.1).
  { destruct (group_indices t0 leg) as [|i [|i' group]]; [done| |done].
    by destruct Hlen. }
  clear Hdone. destruct Hmany as (keys & Hk & Hrows).
  exists keys. split; [done|]. split.
  { eapply sort_by_sorted, sort_keys_label_sorted, Hk. }
  intros p key Hp. rewrite (Hrows p key Hp).
  assert (Hin : key ∈ keys).
  { rewrite <- (sort_by_perm before keys). by eapply list_elem_of_lookup_2. }
  pose proof (sort_keys_rows _ _ _ _ Hk) as Hall.
  apply list_elem_of_lookup_1 in Hin as [q Hq].
  destruct (Forall2_lookup_r _ _ _ _ _ Hall Hq) as (i & Hi & <- & r0 & Hr0 & Hcm & Hd).
  rewrite Hr0. simpl. eexists. split; [done|]. simpl.
  split; [|done].
  assert (Hg : key.1.1 ∈ group_indices t0 leg) by by eapply list_elem_of_lookup_2.
  apply elem_of_group_indices in Hg as (r1 & Hr1 & E). congruence.
Qed.

(** A group of a single row. *)
Lemma classified_one m t0 t' leg idx :
  classify m t0 = Some t' ->
  group_indices t0 leg = [idx] ->
  ∃ r, t' !! idx = Some r ∧
       priority_type r = "Only OD"%string ∧ fill_priority_rank r = Some 1%nat.
Proof.
  intros Hrun Hg. destruct (classify_spec _ _ _ Hrun) as [Hst Hdone].
  specialize (Hdone leg). unfold group_done in Hdone. rewrite Hg in Hdone.
  assert (Hi : idx ∈ group_indices t0 leg) by (rewrite Hg; by left).
  apply elem_of_group_indices in Hi as (r0 & Hr0 & _).
  rewrite Hr0 in Hdone. by eexists.
Qed.

Lemma run_classified `{Builtins} m o rep :
  run m o = Some rep ->
  ∃ records, classify m records = Some (df_leg_detail rep).
Proof.
  intros Hrun. destruct (run_inv _ _ _ Hrun) as (_ & records & _ & _ & Hc & _).
  by exists records.
Qed.

(** ** Labels and ranks of the leg breakdown (C5) *)

(** In the leg breakdown of a run, a record that is alone on its leg is
    labelled "Only OD" with rank 1; any other record carries the label the
    reference table gives for the two booleans "its CM is the top CM of the
    leg" and "its path is direct (has a single leg)". *)
Lemma record_labels `{Builtins} (m : model) (o : lp_outcome)
    (rep : report) (i : nat) (r : leg_row) :
  run m o = Some rep ->
  df_leg_detail rep !! i = Some r ->
  let group := group_rows (df_leg_detail rep) (flight_leg r) in
  (length group = 1%nat ->
     priority_type r = "Only OD"%string ∧ fill_priority_rank r = Some 1%nat) ∧
  (length group ≠ 1%nat ->
     ∃ direct, is_direct m (od_contributor r) = Some direct ∧
       priority_type r = reference_label (is_highest (df_leg_detail rep) r) direct).
Proof.
  intros Hrun Hi group. destruct (run_classified _ _ _ Hrun) as [t0 Hc].
  destruct (classify_spec _ _ _ Hc) as [Hst _].
  assert (Hg : group_indices (df_leg_detail rep) (flight_leg r)
               = group_indices t0 (flight_leg r)) by by apply group_indices_static.
  assert (Hin : i ∈ group_indices t0 (flight_leg r)).
  { rewrite <- Hg. apply elem_of_group_indices. exists r. split; [done|apply py_eqb_refl]. }
  unfold group. rewrite group_rows_length, Hg. split.
  - intros Hlen.
    destruct (group_indices t0 (flight_leg r)) as [|idx [|]] eqn:E; try done.
    apply list_elem_of_singleton in Hin as ->.
    destruct (classified_one _ _ _ _ _ Hc E) as (r' & Hr' & Hl & Hk).
    rewrite Hi in Hr'. by injection Hr' as <-.
  - intros Hlen.
    destruct (classified_many _ _ _ (flight_leg r) Hc Hlen) as (keys & Hk & _ & Hrows).
    pose proof (sort_keys_labels _ _ _ _ Hk) as Hlab.
    rewrite <- Hlab in Hin. apply list_elem_of_fmap in Hin as (key & -> & Hkey).
    rewrite <- (sort_by_perm before keys) in Hkey.
    apply list_elem_of_lookup_1 in Hkey as [p Hp].
    destruct (Hrows p key Hp) as (r' & Hr' & _ & Hcm & Hd & Hl & _).
    rewrite Hi in Hr'. injection Hr' as <-.
    exists key.2. split; [done|]. rewrite Hl, label_reference. f_equal.
    rewrite is_highest_cms.
    rewrite (sort_keys_static m t0 (df_leg_detail rep)), <- Hg in Hk by done.
    rewrite (group_cms _ _ _ _ Hk), <- Hcm.
    assert (Hne : keys ≠ []).
    { by intros ->. }
    destruct (group_top_spec keys Hne) as [Htop Hall].
    apply top_cm_highest; [done|done|].
    apply list_elem_of_fmap. exists key. split; [done|].
    rewrite <- (sort_by_perm before keys). by eapply list_elem_of_lookup_2.
Qed.

Lemma key_lt_cm a b : key_lt a b -> b.1.2 <= a.1.2.
Proof.
  unfold key_lt, ranks_ahead, ties.
  intros [[Hlt|(He & _)]|[(He & _) _]].
  - by apply Qlt_le_weak.
  - rewrite He. apply Qle_refl.
  - rewrite He. apply Qle_refl.
Qed.

Lemma group_rows_congr t leg leg' :
  py_eqb leg leg' = true -> group_rows t leg = group_rows t leg'.
Proof.
  intros E. unfold group_rows. induction t as [|r t IH]; simpl; [done|].
  by rewrite (py_eqb_congr_r _ _ (flight_leg r) E), IH.
Qed.

Lemma omap_positions {A} (F : nat -> option (option nat)) (h : A -> nat)
    (l : list A) n :
  (∀ p x, l !! p = Some x -> F (h x) = Some (Some (n + p)%nat)) ->
  omap F (map h l) = map Some (seq n (length l)).
Proof.
  revert n. induction l as [|x l IH]; intros n Hg; [done|].
  cbn [map length seq]. rewrite omap_cons_eq, (Hg 0%nat x eq_refl), Nat.add_0_r.
  f_equal. apply IH. intros p y Hp. rewrite (Hg (S p) y Hp). do 2 f_equal. lia.
Qed.

Lemma map_lookup_rows {A} (t : list leg_row) (g : leg_row -> A) idxs rows :
  Forall2 (fun i r => t !! i = Some r) idxs rows ->
  map g rows = omap (fun i => g <$> t !! i) idxs.
Proof.
  induction 1 as [|i r idxs rows Hi _ IH]; [done|].
  rewrite omap_cons_eq, Hi. simpl. by rewrite IH.
Qed.

(** C5 (amended). On a leg with two or more records the ranks are the
    numbers 1..n, each once; a record has a smaller rank than another
    exactly when its CM is larger, or the CMs are equal and it is direct and
    the other indirect, or they agree in CM and directness and it stands
    earlier in the table; and a record of rank 1 has the top CM of the
    leg. *)
Theorem C5_ranks_follow_order `{Builtins} (m : model) (o : lp_outcome)
    (rep : report) (leg : pyval) :
  run m o = Some rep ->
  (2 <= length (group_rows (df_leg_detail rep) leg))%nat ->
  map fill_priority_rank (group_rows (df_leg_detail rep) leg)
  ≡ₚ map Some (seq 1 (length (group_rows (df_leg_detail rep) leg))) ∧
  (∀ i j ri rj,
     df_leg_detail rep !! i = Some ri -> df_leg_detail rep !! j = Some rj ->
     py_eqb (flight_leg ri) leg = true -> py_eqb (flight_leg rj) leg = true ->
     ∃ a b di dj,
       fill_priority_rank ri = Some a ∧ fill_priority_rank rj = Some b ∧
       is_direct m (od_contributor ri) = Some di ∧
       is_direct m (od_contributor rj) = Some dj ∧
       ((a < b)%nat <->
        ranks_ahead (leg_od_cm ri) di (leg_od_cm rj) dj ∨
        (ties (leg_od_cm ri) di (leg_od_cm rj) dj ∧ (i < j)%nat))) ∧
  (∀ r, r ∈ group_rows (df_leg_detail rep) leg ->
        fill_priority_rank r = Some 1%nat ->
        is_highest (df_leg_detail rep) r = true).
Proof.
  intros Hrun Hlen. destruct (run_classified _ _ _ Hrun) as [t0 Hc].
  set (t' := df_leg_detail rep) in *.
  destruct (classify_spec _ _ _ Hc) as [Hst _].
  assert (Hg : group_indices t' leg = group_indices t0 leg)
    by by apply group_indices_static.
  rewrite group_rows_length, Hg in Hlen.
  destruct (classified_many _ _ _ leg Hc) as (keys & Hk & Hsorted & Hrows); [lia|].
  pose proof (sort_keys_labels _ _ _ _ Hk) as Hlab.
  assert (Hrow : ∀ i r, t' !! i = Some r -> py_eqb (flight_leg r) leg = true ->
            ∃ p d, sort_by before keys !! p = Some (i, leg_od_cm r, d) ∧
                   is_direct m (od_contributor r) = Some d ∧
                   fill_priority_rank r = Some (S p)).
  { intros i r Hi E.
    assert (Hin : i ∈ group_indices t0 leg).
    { rewrite <- Hg. apply elem_of_group_indices. by exists r. }
    rewrite <- Hlab in Hin. apply list_elem_of_fmap in Hin as (key & -> & Hkey).
    rewrite <- (sort_by_perm before keys) in Hkey.
    apply list_elem_of_lookup_1 in Hkey as [p Hp].
    destruct (Hrows p key Hp) as (r' & Hr' & _ & Hcm & Hd & _ & Hrank).
    rewrite Hi in Hr'. injection Hr' as <-.
    exists p, key.2. rewrite Hcm. by destruct key as [[? ?] ?]. }
  split; [|split].
  - rewrite (map_lookup_rows t' _ _ _ (group_indices_rows t' leg)).
    rewrite group_rows_length, Hg, <- Hlab.
    assert (Hperm : map (fun k : sort_key => k.1.1) keys
                    ≡ₚ map (fun k : sort_key => k.1.1) (sort_by before keys)).
    { apply Permutation_map. symmetry. apply sort_by_perm. }
    rewrite Hperm at 1.
    rewrite length_map, <- (Permutation_length (sort_by_perm before keys)).
    rewrite (omap_positions _ _ _ 1); [done|].
    intros p key Hp. destruct (Hrows p key Hp) as (r & -> & _ & _ & _ & _ & Hr).
    simpl. by rewrite Hr.
  - intros i j ri rj Hi Hj Ei Ej.
    destruct (Hrow i ri Hi Ei) as (p & di & Hp & Hdi & Hri).
    destruct (Hrow j rj Hj Ej) as (q & dj & Hq & Hdj & Hrj).
    exists (S p), (S q), di, dj. repeat (split; [done|]).
    rewrite <- (sorted_positions _ p q _ _ Hsorted Hp Hq). lia.
  - intros r Hr Hrank. apply elem_of_group_rows in Hr as (i & Hi & E).
    destruct (Hrow i r Hi E) as (p & d & Hp & _ & Hrp).
    rewrite Hrank in Hrp. injection Hrp as <-.
    rewrite is_highest_cms, (group_rows_congr t' _ leg E).
    rewrite (sort_keys_static m t0 t'), <- Hg in Hk by done.
    rewrite (group_cms _ _ _ _ Hk).
    apply forallb_forall. intros c Hc'. apply list_elem_of_In in Hc'.
    apply list_elem_of_fmap in Hc' as (key & -> & Hkey).
    rewrite <- (sort_by_perm before keys) in Hkey.
    apply list_elem_of_lookup_1 in Hkey as [q Hq].
    apply Qle_bool_iff. destruct q as [|q].
    + injection (eq_trans (eq_sym Hq) Hp) as ->. apply Qle_refl.
    + apply (key_lt_cm (i, leg_od_cm r, d) key).
      apply (sorted_positions _ 0%nat (S q) _ _ Hsorted Hp Hq). lia.
Qed.

Lemma C5_ranks_follow_order_witness :
  let m := @build plain_builtins shared_leg_direct shared_leg_indirect in
  @run plain_builtins m shared_leg_outcome = Some shared_leg_report ∧
  map fill_priority_rank (group_rows (df_leg_detail shared_leg_report) (VStr "A-B"))
  ≡ₚ map Some (seq 1 2).
Proof.
  split; [reflexivity|].
  refine (proj1 (@C5_ranks_follow_order plain_builtins
                   (@build plain_builtins shared_leg_direct shared_leg_indirect)
                   shared_leg_outcome shared_leg_report (VStr "A-B") _ _)).
  - reflexivity.
  - vm_compute. lia.
Defined.

(** C5, counterexample. Two indirect records with equal CM on one leg: the
    order of the spec
    puts neither ahead of the other, and they are ranked 1 and 2. *)
Lemma C5_counterexample :
  let m := @build plain_builtins [] tie_indirect in
  ∃ rep ri rj,
    @run plain_builtins m tie_outcome = Some rep ∧
    df_leg_detail rep !! 0%nat = Some ri ∧ df_leg_detail rep !! 2%nat = Some rj ∧
    flight_leg ri = flight_leg rj ∧
    is_direct m (od_contributor ri) = Some false ∧
    is_direct m (od_contributor rj) = Some false ∧
    fill_priority_rank ri = Some 1%nat ∧ fill_priority_rank rj = Some 2%nat ∧
    (ranks_ahead (leg_od_cm ri) false (leg_od_cm rj) false -> False) ∧
    (ranks_ahead (leg_od_cm rj) false (leg_od_cm ri) false -> False).
Proof.
  eexists. eexists. eexists.
  split; [reflexivity|]. split; [reflexivity|]. split; [reflexivity|].
  split; [reflexivity|]. split; [reflexivity|]. split; [reflexivity|].
  split; [reflexivity|]. split; [reflexivity|].
  split; (intros [Hlt|(_ & Hd & _)]; [by vm_compute in Hlt|done]).
Qed.

(** ** Sums and rounding (C8) *)

Global Instance qsum_perm {A} (g : A -> Q) : Proper ((≡ₚ) ==> Qeq) (qsum g).
Proof.
  intros l l' Hp. unfold qsum.
  induction Hp as [|x l l' _ IH|x y l|l l' l'' _ IH1 _ IH2]; simpl.
  - reflexivity.
  - by rewrite IH.
  - ring.
  - by rewrite IH1.
Qed.

Lemma qsum_map {A B} (g : B -> Q) (h : A -> B) l :
  qsum g (map h l) = qsum (fun x => g (h x)) l.
Proof. unfold qsum. induction l as [|x l IH]; simpl; [done|]. by rewrite IH. Qed.


Lemma round_half_even_error x :
  - (1 # 2) <= inject_Z (round_half_even x) - x ∧
  inject_Z (round_half_even x) - x <= 1 # 2.
Proof.
  unfold round_half_even.
  pose proof (Qfloor_le x) as Hlo. pose proof (Qlt_floor x) as Hhi.
  rewrite inject_Z_plus in Hhi. change (inject_Z 1) with 1 in Hhi.
  destruct (Qcompare_spec (x - inject_Z (Qfloor x)) (1 # 2)) as [He|Hlt|Hgt].
  - destruct (Z.even (Qfloor x)); [|rewrite inject_Z_plus; change (inject_Z 1) with 1];
      split; lra.
  - split; lra.
  - rewrite inject_Z_plus. change (inject_Z 1) with 1. split; lra.
Qed.

Lemma round2_error q : - (1 # 200) <= round2 q - q ∧ round2 q - q <= 1 # 200.
Proof.
  unfold round2. destruct (round_half_even_error (q * 100)) as [Hlo Hhi].
  unfold Qdiv. change (/ 100) with (1 # 100).
  split; lra.
Qed.

(** ** Floats: the error of one rounding *)

Lemma pow2_pos e : 0 < pow2 e.
Proof. apply Qpower_0_lt. reflexivity. Qed.

Lemma pow2_le e e' : (e <= e')%Z -> pow2 e <= pow2 e'.
Proof. intros He. apply Qpower_le_compat_l; [done|]. by vm_compute. Qed.

Lemma pow2_Z k : (0 <= k)%Z -> pow2 k == inject_Z (2 ^ k).
Proof. intros Hk. unfold pow2. by rewrite Zpower_Qpower. Qed.

(** Half a unit in the last place bounds the rounding error. *)
Lemma double_of_ulp q :
  Qabs (double_of q - q) <= pow2 (ulp_exp q) * (1 # 2).
Proof.
  unfold double_of. destruct (Qeq_bool q 0) eqn:E.
  - apply Qeq_bool_iff in E.
    pose proof (pow2_pos (ulp_exp q)).
    assert (Hz : 0 - q == 0) by (rewrite E; ring). rewrite Hz.
    change (Qabs 0) with 0. lra.
  - cbv zeta. rewrite Qred_correct.
    pose proof (pow2_pos (ulp_exp q)) as Hp.
    destruct (round_half_even_error (q / pow2 (ulp_exp q))) as [Hlo Hhi].
    set (z := inject_Z (round_half_even (q / pow2 (ulp_exp q)))) in *.
    set (p := pow2 (ulp_exp q)) in *.
    assert (H1 : z * p - q == (z - q / p) * p) by (field; lra).
    apply Qabs_Qle_condition.
    rewrite H1. split; nra.
Qed.

Lemma div_le_div (a b c d : Q) :
  0 < a -> a <= c -> 0 < d -> d <= b -> a / b <= c / d.
Proof.
  intros Ha Hac Hd Hdb.
  apply Qle_shift_div_l; [done|].
  unfold Qdiv. rewrite <- Qmult_assoc, (Qmult_comm (/ b)), Qmult_assoc.
  apply Qle_shift_div_r; [lra|]. nra.
Qed.

Lemma ilog2_le q : 0 < q -> pow2 (ilog2 q) <= q.
Proof.
  intros Hq. unfold ilog2.
  destruct (Qle_bool _ q) eqn:E; [by apply Qle_bool_iff|]. clear E.
  destruct q as [n d]. cbn [Qnum Qden].
  assert (Hn : (0 < n)%Z).
  { unfold Qlt in Hq. simpl in Hq. lia. }
  pose proof (Z.log2_spec n Hn) as [Ha _].
  pose proof (Z.log2_spec (Z.pos d) (Pos2Z.is_pos d)) as [_ Hb].
  pose proof (Z.log2_nonneg n) as Ha0.
  pose proof (Z.log2_nonneg (Z.pos d)) as Hb0.
  remember (Z.log2 n) as a. remember (Z.log2 (Z.pos d)) as b.
  replace (a - b - 1)%Z with (a - Z.succ b)%Z by lia.
  unfold pow2. rewrite Qpower_minus by done.
  change (2 ^ a) with (inject_Z 2 ^ a).
  change (2 ^ Z.succ b) with (inject_Z 2 ^ Z.succ b).
  rewrite <- !Zpower_Qpower by lia.
  rewrite (Qmake_Qdiv n d).
  apply div_le_div.
  - change 0 with (inject_Z 0). rewrite <- Zlt_Qlt. by apply Z.pow_pos_nonneg.
  - by rewrite <- Zle_Qle.
  - change 0 with (inject_Z 0). by rewrite <- Zlt_Qlt.
  - rewrite <- Zle_Qle. lia.
Qed.

Lemma ulp_le q : ~ q == 0 -> pow2 (ulp_exp q) <= pow2 (-1074) + Qabs q * pow2 (-52).
Proof.
  intros Hq0. unfold ulp_exp.
  pose proof (pow2_pos (-1074)) as H1. pose proof (pow2_pos (-52)) as H2.
  pose proof (Qabs_nonneg q) as H3.
  destruct (Z.max_spec (-1074) (ilog2 (Qabs q) - 52)) as [[_ ->]|[_ ->]]; [|nra].
  assert (Hpos : 0 < Qabs q).
  { apply Qabs_case; intros Hs.
    - destruct (Qle_lt_or_eq _ _ Hs) as [|E]; [done|]. exfalso. apply Hq0. by symmetry.
    - destruct (Qle_lt_or_eq _ _ Hs) as [|E]; [lra|]. by exfalso. }
  pose proof (ilog2_le _ Hpos) as Hl.
  replace (ilog2 (Qabs q) - 52)%Z with (ilog2 (Qabs q) + -52)%Z by lia.
  unfold pow2 at 1. rewrite Qpower_plus by done.
  fold (pow2 (ilog2 (Qabs q))). fold (pow2 (-52)).
  pose proof (pow2_pos (ilog2 (Qabs q))). nra.
Qed.

Lemma double_of_close q : Qabs (double_of q - q) <= pow2 (-53) * (1 + Qabs q).
Proof.
  destruct (Qeq_dec q 0) as [E|E].
  - unfold double_of. apply Qeq_bool_iff in E as E'. rewrite E'.
    assert (Hz : 0 - q == 0) by (rewrite E; ring). rewrite Hz.
    change (Qabs 0) with 0. pose proof (pow2_pos (-53)). pose proof (Qabs_nonneg q). nra.
  - pose proof (double_of_ulp q) as H1. pose proof (ulp_le q E) as H2.
    pose proof (Qabs_nonneg q) as H3.
    assert (H4 : pow2 (-1074) <= pow2 (-52)) by by apply pow2_le.
    assert (H5 : pow2 (-52) * (1 # 2) == pow2 (-53)) by reflexivity.
    nra.
Qed.

Lemma Qabs_bounds x : - Qabs x <= x ∧ x <= Qabs x ∧ 0 <= Qabs x.
Proof.
  pose proof (Qle_Qabs x). pose proof (Qle_Qabs (- x)) as H1.
  rewrite Qabs_opp in H1. pose proof (Qabs_nonneg x). repeat split; lra.
Qed.

Lemma Qabs_le_of x b : - b <= x -> x <= b -> Qabs x <= b.
Proof. intros. by apply Qabs_Qle_condition. Qed.

Lemma double_of_nonneg q : 0 <= q -> 0 <= double_of q.
Proof.
  intros Hq. unfold double_of. destruct (Qeq_bool q 0); [apply Qle_refl|].
  cbv zeta. rewrite Qred_correct.
  pose proof (pow2_pos (ulp_exp q)) as Hp.
  assert (Hz : (0 <= round_half_even (q / pow2 (ulp_exp q)))%Z).
  { unfold round_half_even.
    assert (Hf : (0 <= Qfloor (q / pow2 (ulp_exp q)))%Z).
    { change 0%Z with (Qfloor 0). apply Qfloor_resp_le.
      apply Qle_shift_div_l; [done|]. lra. }
    destruct (Qcompare _ _); [destruct (Z.even _)| |]; lia. }
  rewrite Zle_Qle in Hz. change (inject_Z 0) with 0 in Hz. nra.
Qed.

Lemma round2_nonneg q : 0 <= q -> 0 <= round2 q.
Proof.
  intros Hq. unfold round2.
  assert (Hz : (0 <= round_half_even (q * 100))%Z).
  { unfold round_half_even.
    assert (Hf : (0 <= Qfloor (q * 100))%Z).
    { change 0%Z with (Qfloor 0). apply Qfloor_resp_le. lra. }
    destruct (Qcompare _ _); [destruct (Z.even _)| |]; lia. }
  rewrite Zle_Qle in Hz. change (inject_Z 0) with 0 in Hz.
  unfold Qdiv. change (/ 100) with (1 # 100). lra.
Qed.

Lemma py_round2_nonneg q : 0 <= q -> 0 <= py_round2 q.
Proof. intros. by apply double_of_nonneg, round2_nonneg. Qed.

Lemma py_round2_close x :
  Qabs (py_round2 x - x) <= (1 # 200) + pow2 (-52) * (1 + Qabs x).
Proof.
  unfold py_round2.
  pose proof (double_of_close (round2 x)) as H1.
  destruct (round2_error x) as [H2 H3].
  destruct (Qabs_bounds (double_of (round2 x) - round2 x)) as (A1 & A2 & A3).
  destruct (Qabs_bounds (round2 x)) as (B1 & B2 & B3).
  destruct (Qabs_bounds x) as (C1 & C2 & C3).
  assert (HB : Qabs (round2 x) <= Qabs x + (1 # 200)) by (apply Qabs_le_of; lra).
  change (pow2 (-53)) with (1 # 9007199254740992) in H1.
  change (pow2 (-52)) with (1 # 4503599627370496).
  apply Qabs_le_of; lra.
Qed.


(** ** Dictionaries built by assignment have distinct keys *)

Lemma dict_set_keys {V} k (v : V) d e :
  e ∈ dict_set k v d -> e.1 = k ∨ ∃ e', e' ∈ d ∧ e'.1 = e.1.
Proof.
  induction d as [|[a w] d IH]; simpl.
  - intros ->%list_elem_of_singleton. by left.
  - destruct (py_eqb a k).
    + intros [->|He]%elem_of_cons.
      * right. exists (a, w). split; [left|done].
      * right. exists e. split; [by right|done].
    + intros [->|He]%elem_of_cons.
      * right. exists (a, w). split; [left|done].
      * destruct (IH He) as [?|(e' & He' & E)]; [by left|].
        right. exists e'. split; [by right|done].
Qed.

Lemma dict_set_distinct {V} k (v : V) d :
  distinct_dict d -> distinct_dict (dict_set k v d).
Proof.
  unfold distinct_dict. induction 1 as [|[a w] d Hd IH Ha]; simpl.
  - repeat constructor.
  - destruct (py_eqb a k) eqn:E.
    + constructor; [done|]. exact Ha.
    + constructor; [done|]. rewrite Forall_forall in *. intros e He.
      destruct (dict_set_keys _ _ _ _ He) as [->|(e' & He' & <-)]; [done|].
      by apply Ha.
Qed.

Lemma dict_get_distinct {V} (d : list (pyval * V)) k v :
  distinct_dict d -> (k, v) ∈ d -> dict_get k d = Some v.
Proof.
  unfold distinct_dict. induction 1 as [|[a w] d Hd IH Ha]; simpl.
  - by intros ?%elem_of_nil.
  - intros [[= -> ->]|Hin]%elem_of_cons.
    + by rewrite py_eqb_refl.
    + rewrite Forall_forall in Ha. specialize (Ha _ Hin). simpl in Ha.
      rewrite Ha. by apply IH.
Qed.

Lemma foldl_set_entry_distinct {V} (es d : list (pyval * V)) :
  distinct_dict d -> distinct_dict (foldl set_entry d es).
Proof.
  revert d. induction es as [|e es IH]; intros d Hd; simpl; [done|].
  apply IH. by apply dict_set_distinct.
Qed.

Lemma build_distinct `{Builtins} sheet0 sheet1 :
  distinct_dict (all_od_paths (build sheet0 sheet1)).
Proof.
  unfold build. rewrite build_rows_paths.
  apply foldl_set_entry_distinct. constructor.
Qed.

(** ** The objective value and the summary *)


Lemma affine_value_some val terms s :
  Forall (fun t : pyval * Q => is_Some (val t.1)) terms ->
  is_Some (affine_value val terms s).
Proof.
  intros Hall. revert s. induction Hall as [|[v c] terms [a Ha] _ IH]; intros s; simpl.
  - by eexists.
  - simpl in Ha. rewrite Ha. apply IH.
Qed.







(** ** When the run produces a report (C3) *)

Lemma od_summary_loop_inv `{Builtins} m o vars rows :
  od_summary_loop m (varValue o) vars = Some rows ->
  Forall (fun v => is_Some (varValue o v)) vars ∧
  Forall (fun v => has_tonnage o v = true ->
                   is_Some (dict_get (recover_od (var_name v)) (all_od_paths m))) vars ∧
  map od_pair rows
  = map (fun v => recover_od (var_name v)) (List.filter (has_tonnage o) vars) ∧
  Forall (fun r => is_Some (dict_get (od_pair r) (all_od_paths m))) rows.
Proof.
  revert rows. induction vars as [|v vars IH]; intros rows; simpl.
  - intros [= <-]. repeat split; constructor.
  - unfold has_tonnage at 2 3. destruct (varValue o v) as [t|] eqn:Ev; simpl; [|done].
    destruct (Qltb 0 t) eqn:Et.
    + destruct (dict_get _ _) as [props|] eqn:Ep; simpl; [|done].
      destruct (od_summary_loop _ _ vars) as [rows'|]; simpl; [|done].
      intros [= <-]. destruct (IH rows' eq_refl) as (H1 & H2 & H3 & H4).
      repeat split.
      * constructor; [by rewrite Ev|done].
      * constructor; [|done]. intros _. by rewrite Ep.
      * simpl. by rewrite H3.
      * constructor; [|done]. simpl. by rewrite Ep.
    + intros Hrun. destruct (IH rows Hrun) as (H1 & H2 & H3 & H4).
      repeat split; try done.
      * constructor; [by rewrite Ev|done].
      * constructor; [|done]. unfold has_tonnage. by rewrite Ev, Et.
Qed.

Lemma od_summary_loop_some `{Builtins} m o vars :
  Forall (fun v => is_Some (varValue o v)) vars ->
  Forall (fun v => has_tonnage o v = true ->
                   is_Some (dict_get (recover_od (var_name v)) (all_od_paths m))) vars ->
  is_Some (od_summary_loop m (varValue o) vars).
Proof.
  induction 1 as [|v vars [t Ht] _ IH]; intros Hl; simpl; [by eexists|].
  apply Forall_cons in Hl as [Hv Hl]. rewrite Ht. simpl.
  unfold has_tonnage in Hv. rewrite Ht in Hv.
  destruct (IH Hl) as [rows' ->].
  destruct (Qltb 0 t); [|by eexists].
  destruct (Hv eq_refl) as [props ->]. by eexists.
Qed.

Lemma leg_records_inv m rows recs :
  leg_records m rows = Some recs ->
  Forall (fun r => is_Some (dict_get (od_contributor r) (all_od_paths m))) recs ∧
  (rows = [] -> recs = []).
Proof.
  unfold leg_records. intros Hr.
  destruct (mapM _ rows) as [parts|] eqn:Hm; simpl in Hr; [|done].
  injection Hr as <-. apply mapM_Some_1 in Hm. split.
  - induction Hm as [|r part rows parts Hr _ IH]; simpl; [constructor|].
    apply Forall_app. split; [|done].
    destruct (dict_get (od_pair r) (all_od_paths m)) as [props|] eqn:Ep;
      simpl in Hr; [|done].
    injection Hr as <-. rewrite Forall_forall. intros x Hx.
    apply list_elem_of_fmap in Hx as (leg & -> & _). simpl. by rewrite Ep.
  - intros ->. by apply Forall2_nil_inv_l in Hm as ->.
Qed.

Lemma leg_records_some m rows :
  Forall (fun e : pyval * od_path => legs e.2 ≠ []) (all_od_paths m) ->
  Forall (fun r => is_Some (dict_get (od_pair r) (all_od_paths m))) rows ->
  ∃ recs, leg_records m rows = Some recs ∧ (rows ≠ [] -> recs ≠ []).
Proof.
  intros Hlegs. unfold leg_records.
  induction 1 as [|r rows [props Hp] _ (recs & Hrecs & Hne)]; simpl.
  - by eexists.
  - rewrite Hp. simpl.
    destruct (mapM _ rows) as [parts|]; simpl in Hrecs; [|done].
    injection Hrecs as <-. simpl. eexists. split; [done|]. intros _.
    destruct (legs props) as [|leg ls] eqn:El; [|done].
    assert (∃ k, (k, props) ∈ all_od_paths m) as [k Hk].
    { clear -Hp. induction (all_od_paths m) as [|[a w] d IH]; simpl in Hp; [done|].
      destruct (py_eqb a (od_pair r)).
      - injection Hp as ->. exists a. by left.
      - destruct (IH Hp) as [k Hk]. exists k. by right. }
    rewrite Forall_forall in Hlegs. by destruct (Hlegs _ Hk).
Qed.

Lemma dict_set_values {V} (P : V -> Prop) k v (d : list (pyval * V)) :
  Forall (fun e => P e.2) d -> P v -> Forall (fun e => P e.2) (dict_set k v d).
Proof.
  intros Hd Hv. induction Hd as [|[a w] d Ha Hd IH]; simpl.
  - by repeat constructor.
  - destruct (py_eqb a k); constructor; done.
Qed.

Lemma foldl_set_entry_values {V} (P : V -> Prop) (es d : list (pyval * V)) :
  Forall (fun e => P e.2) d -> Forall (fun e => P e.2) es ->
  Forall (fun e => P e.2) (foldl set_entry d es).
Proof.
  intros Hd Hes. revert d Hd. induction Hes as [|e es He _ IH]; intros d Hd; simpl; [done|].
  apply IH. by apply dict_set_values.
Qed.

Lemma build_legs `{Builtins} sheet0 sheet1 :
  Forall (fun e : pyval * od_path => legs e.2 ≠ [])
         (all_od_paths (build sheet0 sheet1)).
Proof.
  unfold build. rewrite build_rows_paths.
  apply (foldl_set_entry_values (fun p => legs p ≠ [])); [constructor|].
  unfold entries. apply Forall_app. split; rewrite Forall_forall; intros e He;
    apply list_elem_of_omap in He as (r & _ & Hr).
  - unfold direct_entry in Hr.
    destruct (read_direct r) as [[[[od c] ms] cap]|]; [|done]. by injection Hr as <-.
  - destruct e as [od p].
    destruct (read_indirect_inv _ _ _ Hr) as (? & ? & _ & _ & _ & _ & _ & E).
    simpl. by rewrite E.
Qed.

Lemma contributors_known_static m t t' :
  map static t = map static t' -> contributors_known m t -> contributors_known m t'.
Proof.
  unfold contributors_known. intros E Ht.
  assert (Hs : ∀ l, Forall (fun r => is_Some (is_direct m (od_contributor r))) l
                    <-> Forall (fun s : pyval * pyval * Q * Q * Q =>
                                  is_Some (is_direct m s.1.1.1.2)) (map static l)).
  { intros l. by rewrite Forall_map. }
  apply Hs. rewrite <- E. by apply Hs.
Qed.

Lemma classify_group_some m t leg :
  contributors_known m t -> is_Some (classify_group m t leg).
Proof.
  intros Ht. unfold classify_group.
  assert (Hk : is_Some (sort_keys m t (group_indices t leg))).
  { unfold sort_keys. apply mapM_is_Some_2. rewrite Forall_forall. intros i Hi.
    apply elem_of_group_indices in Hi as (r & Hr & _). simpl. rewrite Hr. simpl.
    unfold contributors_known in Ht. rewrite Forall_forall in Ht.
    destruct (Ht r) as [d ->]; [by eapply list_elem_of_lookup_2|]. by eexists. }
  destruct (group_indices t leg) as [|i [|i' group]]; [|by eexists|];
    destruct Hk as [keys ->]; by eexists.
Qed.

Lemma classify_fold_some m ks t :
  contributors_known m t -> is_Some (foldl (classify_step m) (Some t) ks).
Proof.
  revert t. induction ks as [|k ks IH]; intros t Ht; simpl; [by eexists|].
  destruct (classify_group_some m t k Ht) as [t' Ht'].
  rewrite Ht'. apply IH.
  destruct (classify_group_spec _ _ _ _ Ht') as [Hst _].
  by apply (contributors_known_static m t t').
Qed.

Lemma classify_some m t :
  t ≠ [] -> contributors_known m t -> is_Some (classify m t).
Proof.
  intros Hne Ht. unfold classify. destruct t as [|r t]; [done|].
  by apply (classify_fold_some m).
Qed.

Lemma is_direct_some m od :
  is_Some (dict_get od (all_od_paths m)) -> is_Some (is_direct m od).
Proof. intros [p Hp]. unfold is_direct. rewrite Hp. by eexists. Qed.

(** C3, counterexample. An infeasible program (a ceiling of -1 under a lower
    bound of 0) whose
    solver says so and still left values: the run shows its tables. *)
Lemma C3_counterexample :
  solver_contract (build_lp (@build plain_builtins negative_sheet []))
                  negative_outcome ∧
  status negative_outcome = LpInfeasible ∧
  @app plain_builtins negative_sheet [] negative_outcome = Some negative_report ∧
  map od_pair (df_od_summary negative_report) = [VStr "A-B"].
Proof.
  split; [|by repeat split].
  assert (E : build_lp (@build plain_builtins negative_sheet [])
              = {| lp_variables := [VStr "A-B"; VStr "C-D"];
                   lp_objective := [(VStr "A-B", 10); (VStr "C-D", 10)];
                   lp_constraints :=
                     [([VStr "A-B"], 5); ([VStr "C-D"], -1);
                      ([VStr "A-B"], 5); ([VStr "C-D"], -1)] |}) by reflexivity.
  rewrite E. intros y [Hpos Hcons]. cbn [lp_variables lp_constraints] in Hpos, Hcons.
  apply Forall_cons in Hpos as [_ Hpos]. apply Forall_cons in Hpos as [Hcd _].
  apply Forall_cons in Hcons as [_ Hcons]. apply Forall_cons in Hcons as [Hcap _].
  unfold lin_sum in Hcap. cbn [foldr fst snd] in Hcap. lra.
Qed.

(** C3 (amended). The run never looks at the status the solver reports. It
    shows its tables exactly when every variable has a value, the OD code
    recovered from each variable with positive value is a key of the
    registry, and some variable has a positive value; in every other case
    an exception ends it. The outcome of the run is the same whatever the
    status. *)
Theorem C3_run_ignores_status `{Builtins} (sheet0 sheet1 : list raw_row)
    (o : lp_outcome) :
  let m := build sheet0 sheet1 in
  let vars := variables (build_lp m) in
  (is_Some (app sheet0 sheet1 o) <->
   Forall (fun v => is_Some (varValue o v)) vars ∧
   Forall (fun v => has_tonnage o v = true ->
                    is_Some (dict_get (recover_od (var_name v)) (all_od_paths m)))
          vars ∧
   Exists (fun v => has_tonnage o v = true) vars) ∧
  ∀ st, app sheet0 sheet1 {| status := st; varValue := varValue o |}
        = app sheet0 sheet1 o.
Proof.
  intros m vars. split; [|done]. unfold app. fold m. unfold run. fold vars. split.
  - intros [rep Hrun].
    destruct (od_summary_loop m (varValue o) vars) as [rows|] eqn:Hsum;
      simpl in Hrun; [|done].
    destruct (leg_records m rows) as [records|] eqn:Hrec; simpl in Hrun; [|done].
    destruct (classify m records) as [detail|] eqn:Hc; simpl in Hrun; [|done].
    destruct (od_summary_loop_inv _ _ _ _ Hsum) as (H1 & H2 & H3 & _).
    split; [done|]. split; [done|].
    destruct (List.filter (has_tonnage o) vars) as [|v l] eqn:Ef.
    + destruct rows; [|done].
      destruct (leg_records_inv _ _ _ Hrec) as [_ Hnil].
      rewrite (Hnil eq_refl) in Hc. done.
    + apply Exists_exists. exists v.
      assert (Hv : v ∈ List.filter (has_tonnage o) vars) by (rewrite Ef; by left).
      by apply elem_of_List_filter in Hv.
  - intros (H1 & H2 & H3).
    destruct (od_summary_loop_some m o vars H1 H2) as [rows Hsum]. rewrite Hsum. simpl.
    destruct (od_summary_loop_inv _ _ _ _ Hsum) as (_ & _ & Hrows & Hknown).
    destruct (leg_records_some m rows (build_legs sheet0 sheet1) Hknown)
      as (records & Hrec & Hne).
    rewrite Hrec. simpl.
    destruct (classify_some m records) as [detail ->].
    + apply Hne. intros ->. apply Exists_exists in H3 as (v & Hv & Hpos).
      assert (Hf : v ∈ List.filter (has_tonnage o) vars)
        by by apply elem_of_List_filter.
      destruct (List.filter (has_tonnage o) vars); [by apply elem_of_nil in Hf|done].
    + destruct (leg_records_inv _ _ _ Hrec) as [Hc _].
      eapply Forall_impl; [exact Hc|]. intros r. apply is_direct_some.
    + simpl.
      destruct (affine_value_some (varValue o)
                  (map (fun e : pyval * od_path => (e.1, cm e.2)) (all_od_paths m)) 0)
        as [total ->]; [|by eexists].
      rewrite Forall_map. rewrite Forall_forall in H1. rewrite Forall_forall.
      intros e He. simpl. apply H1. unfold vars. rewrite variables_perm.
      apply list_elem_of_fmap. by exists e.
Qed.

(** ** The linear program and the solver's contract (C1, C2) *)

Lemma objective_build_lp m y : objective_at (build_lp m) y = total_cm m y.
Proof.
  unfold objective_at, total_cm. simpl.
  induction (all_od_paths m) as [|e l IH]; simpl; [done|]. by rewrite IH.
Qed.

Lemma lp_feasible_build_lp m y :
  lp_feasible (build_lp m) y <-> respects_mapped_legs m y ∧ respects_ceilings m y.
Proof.
  unfold lp_feasible, respects_mapped_legs, respects_ceilings. simpl.
  rewrite Forall_app, !Forall_map, !Forall_forall. simpl. split.
  - intros (Hpos & Hlegs & Hceil). split.
    + intros leg cap Hin. by apply (Hlegs (leg, cap)).
    + intros od p Hin. split; [by apply (Hpos (od, p))|].
      specialize (Hceil (od, p) Hin). unfold lin_sum in Hceil. simpl in Hceil. lra.
  - intros (Hlegs & Hceil). split; [|split].
    + intros [od p] Hin. by apply (Hceil od p).
    + intros [leg cap] Hin. by apply Hlegs.
    + intros [od p] Hin. destruct (Hceil od p Hin) as [_ Hu].
      unfold lin_sum. simpl. lra.
Qed.

Lemma lin_sum_zero vs : lin_sum (fun _ => 0) vs == 0.
Proof. induction vs as [|v vs IH]; simpl; [reflexivity|]. rewrite IH. ring. Qed.

Lemma origin_feasible m :
  nonneg_model m -> lp_feasible (build_lp m) (fun _ => 0).
Proof.
  intros [Hceil Hcap]. apply lp_feasible_build_lp. split.
  - intros leg cap Hin. unfold leg_load. rewrite lin_sum_zero.
    rewrite Forall_forall in Hcap. by apply (Hcap (leg, cap)).
  - intros od p Hin. split; [apply Qle_refl|].
    rewrite Forall_forall in Hceil. by apply (Hceil (od, p)).
Qed.

Lemma term_bound (y c u : Q) : 0 <= y -> y <= u -> y * c <= Qabs c * u.
Proof.
  intros Hy Hu. destruct (Qlt_le_dec c 0) as [Hc|Hc].
  - rewrite Qabs_neg by by apply Qlt_le_weak. nra.
  - rewrite Qabs_pos by done. nra.
Qed.

Lemma objective_bounded m y :
  respects_ceilings m y ->
  total_cm m y <=
  foldr (fun (e : pyval * od_path) s => Qabs (cm e.2) * max_allocable e.2 + s)
        0 (all_od_paths m).
Proof.
  unfold respects_ceilings, total_cm.
  induction (all_od_paths m) as [|[od p] l IH]; intros Hc; simpl.
  - apply Qle_refl.
  - apply Qplus_le_compat.
    + destruct (Hc od p) as [H0 Hu]; [left|]. by apply term_bound.
    + apply IH. intros od' p' Hin. apply Hc. by right.
Qed.










Lemma dict_get_elem {V} k (d : list (pyval * V)) v :
  dict_get k d = Some v -> ∃ k', (k', v) ∈ d ∧ py_eqb k' k = true.
Proof.
  induction d as [|[a w] d IH]; simpl; [done|].
  destruct (py_eqb a k) eqn:E.
  - intros [= ->]. exists a. split; [left|done].
  - intros Hk. destruct (IH Hk) as (k' & Hin & Ek). exists k'. split; [by right|done].
Qed.













(** ** Contributors and their labels (C7) *)

Lemma filter_none {A} (f : A -> bool) l :
  Forall (fun x => f x = false) l -> List.filter f l = [].
Proof. induction 1 as [|x l Hx _ IH]; simpl; [done|]. by rewrite Hx. Qed.

(** Among pairwise different legs, at most one equals [k]. *)
Lemma filter_leg_distinct k l :
  StronglySorted (fun a b => py_eqb a b = false) l ->
  (py_in k l = false ∧ List.filter (fun x => py_eqb x k) l = []) ∨
  (py_in k l = true ∧ ∃ x, List.filter (fun x => py_eqb x k) l = [x]).
Proof.
  unfold py_in. induction 1 as [|x l _ IH Hx]; simpl; [by left|].
  destruct (py_eqb x k) eqn:E; simpl.
  - right. split; [done|]. exists x. f_equal. apply filter_none.
    rewrite Forall_forall in Hx. rewrite Forall_forall. intros y Hy.
    destruct (py_eqb y k) eqn:Ey; [|done].
    rewrite (py_eqb_sym y k) in Ey. pose proof (Hx y Hy) as Hxy.
    by rewrite (py_eqb_trans _ _ _ E Ey) in Hxy.
  - exact IH.
Qed.

Lemma filter_map_swap {A B} (f : B -> bool) (g : A -> B) l :
  List.filter f (map g l) = map g (List.filter (fun x => f (g x)) l).
Proof.
  induction l as [|x l IH]; simpl; [done|].
  destruct (f (g x)); simpl; by rewrite IH.
Qed.

(** The records of a leg, before classification: one for each contributor
    of the leg, in the order of the per-OD output. *)
Lemma leg_records_group m rows recs leg :
  distinct_legs m ->
  leg_records m rows = Some recs ->
  Forall2 (fun r rec => py_eqb (flight_leg rec) leg = true ∧
                        od_contributor rec = od_pair r ∧
                        leg_od_cm rec = od_cm r ∧
                        leg_tonnage rec = cargo_tonnage r)
          (contributors m rows leg) (group_rows recs leg).
Proof.
  intros Hd. unfold leg_records. intros Hr.
  destruct (mapM _ rows) as [parts|] eqn:Hm; simpl in Hr; [|done].
  injection Hr as <-. apply mapM_Some_1 in Hm.
  induction Hm as [|r part rows parts Hr _ IH]; [constructor|].
  destruct (dict_get (od_pair r) (all_od_paths m)) as [props|] eqn:Ep;
    simpl in Hr; [|done].
  injection Hr as <-.
  unfold contributors, group_rows in *. cbn [List.filter concat].
  rewrite List.filter_app. unfold traverses at 1. rewrite Ep.
  rewrite filter_map_swap. cbn [flight_leg].
  destruct (dict_get_elem _ _ _ Ep) as (k & Hk & _).
  unfold distinct_legs in Hd. rewrite Forall_forall in Hd.
  pose proof (Hd _ Hk) as Hs. simpl in Hs.
  destruct (filter_leg_distinct leg _ Hs) as [[-> ->]|[-> [x Hx]]].
  - exact IH.
  - rewrite Hx. cbn [map app]. constructor; [|exact IH].
    cbn [flight_leg od_contributor leg_od_cm leg_tonnage]. split; [|done].
    assert (Hin : x ∈ List.filter (fun x => py_eqb x leg) (legs props))
      by (rewrite Hx; left).
    by apply elem_of_List_filter in Hin as [_ ?].
Qed.

Lemma group_rows_static t t' leg :
  map static t = map static t' ->
  Forall2 (fun a b => static a = static b) (group_rows t leg) (group_rows t' leg).
Proof.
  revert t'. unfold group_rows.
  induction t as [|r t IH]; intros [|r' t'] E; simpl in E;
    try discriminate E; [constructor|].
  injection E as E1 E2 E3 E4 E5 Et. simpl. rewrite E1.
  destruct (py_eqb (flight_leg r') leg); [|by apply IH].
  constructor; [|by apply IH]. unfold static. by rewrite E1, E2, E3, E4, E5.
Qed.

Lemma forallb_map {A B} (f : B -> bool) (g : A -> B) l :
  forallb f (map g l) = forallb (fun x => f (g x)) l.
Proof. induction l as [|x l IH]; simpl; [done|]. by rewrite IH. Qed.

(** C7, counterexample. An indirect market that names the leg A-B twice is
    the only contributor of the leg, with positive tonnage; the leg
    breakdown lists it twice and labels it "Highest CM - Indirect" with
    ranks 1 and 2 instead of "Only OD" with rank 1. *)
Lemma C7_counterexample :
  let m := @build plain_builtins [] twice_sheet in
  @app plain_builtins [] twice_sheet twice_outcome = Some twice_report ∧
  map od_pair (df_od_summary twice_report) = [VStr "A-C"] ∧
  length (contributors m (df_od_summary twice_report) (VStr "A-B")) = 1%nat ∧
  map (fun r => (flight_leg r, od_contributor r, priority_type r,
                 fill_priority_rank r))
      (df_leg_detail twice_report)
  = [(VStr "A-B", VStr "A-C", "Highest CM - Indirect", Some 1);
     (VStr "A-B", VStr "A-C", "Highest CM - Indirect", Some 2)]%string%nat.
Proof. by repeat split. Qed.

(** C7 (amended). The rows of the per-OD output stand for the variables
    with positive value, and when no path names a leg twice, the leg
    breakdown holds on every leg exactly one record for each contributor of
    the leg (a row whose path traverses it), with the contributor's code,
    CM and tonnage. If the leg has exactly one contributor, its record is
    labelled "Only OD" with rank 1; otherwise the record carries the label
    the reference table gives for the two booleans "the contributor's CM is
    the top CM among the contributors of the leg" and "its path is direct
    (has a single leg)". *)
Theorem C7_labels_follow_reference_rule `{Builtins} (m : model) (o : lp_outcome)
    (rep : report) (leg : pyval) :
  run m o = Some rep ->
  distinct_legs m ->
  let cs := contributors m (df_od_summary rep) leg in
  map od_pair (df_od_summary rep)
  = map (fun v => recover_od (var_name v))
        (List.filter (has_tonnage o) (variables (build_lp m))) ∧
  Forall2 (fun r rec =>
             py_eqb (flight_leg rec) leg = true ∧
             od_contributor rec = od_pair r ∧
             leg_od_cm rec = od_cm r ∧
             leg_tonnage rec = cargo_tonnage r ∧
             (length cs = 1%nat ->
                priority_type rec = "Only OD"%string ∧
                fill_priority_rank rec = Some 1%nat) ∧
             (length cs ≠ 1%nat ->
                ∃ direct, is_direct m (od_pair r) = Some direct ∧
                  priority_type rec = reference_label (top_among cs r) direct))
          cs (group_rows (df_leg_detail rep) leg).
Proof.
  intros Hrun Hd cs.
  destruct (run_inv _ _ _ Hrun) as (rows & recs & Hrows & Hrecs & Hc & _ & Hsum).
  split.
  { rewrite Hsum. by destruct (od_summary_loop_inv _ _ _ _ Hrows) as (_ & _ & ? & _). }
  destruct (classify_spec _ _ _ Hc) as [Hst _].
  pose proof (leg_records_group m rows recs leg Hd Hrecs) as Hgroup.
  pose proof (group_rows_static _ _ leg Hst) as Hstat.
  rewrite <- Hsum in Hgroup. fold cs in Hgroup.
  assert (Hbasic : Forall2 (fun r rec =>
                      py_eqb (flight_leg rec) leg = true ∧
                      od_contributor rec = od_pair r ∧
                      leg_od_cm rec = od_cm r ∧
                      leg_tonnage rec = cargo_tonnage r)
                    cs (group_rows (df_leg_detail rep) leg)).
  { apply Forall2_same_length_lookup. split.
    - rewrite (Forall2_length _ _ _ Hgroup). symmetry. by eapply Forall2_length.
    - intros i r rec Hr Hrec.
      destruct (Forall2_lookup_l _ _ _ _ _ Hgroup Hr) as (rec0 & Hrec0 & E & H1 & H2 & H3).
      pose proof (Forall2_lookup_lr _ _ _ _ _ _ Hstat Hrec Hrec0) as Hs.
      unfold static in Hs. injection Hs as -> -> -> -> _. done. }
  assert (Hcms : map leg_od_cm (group_rows (df_leg_detail rep) leg) = map od_cm cs).
  { clear -Hbasic. induction Hbasic as [|r rec l k (_ & _ & E & _) _ IH]; [done|].
    simpl. by rewrite E, IH. }
  apply Forall2_same_length_lookup. split; [by eapply Forall2_length|].
  intros i r rec Hr Hrec.
  pose proof (Forall2_lookup_lr _ _ _ _ _ _ Hbasic Hr Hrec) as (E & H1 & H2 & H3).
  do 4 (split; [done|]).
  assert (Hin : rec ∈ group_rows (df_leg_detail rep) leg)
    by by eapply list_elem_of_lookup_2.
  apply elem_of_group_rows in Hin as (j & Hj & _).
  pose proof (record_labels m o rep j rec Hrun Hj) as Hlab. cbv zeta in Hlab.
  rewrite (group_rows_congr _ _ _ E) in Hlab.
  rewrite (Forall2_length _ _ _ Hbasic). destruct Hlab as [Hone Hmany].
  split; [done|]. intros Hlen. destruct (Hmany Hlen) as (direct & Hdir & Hl).
  exists direct. rewrite <- H1. split; [done|]. rewrite Hl. f_equal.
  rewrite is_highest_cms, (group_rows_congr _ _ _ E), Hcms, H2.
  unfold top_among. by rewrite forallb_map.
Qed.

Lemma shared_leg_distinct :
  distinct_legs (@build plain_builtins shared_leg_direct shared_leg_indirect).
Proof. repeat constructor. Qed.

Lemma C7_labels_follow_reference_rule_witness :
  let m := @build plain_builtins shared_leg_direct shared_leg_indirect in
  let cs := contributors m (df_od_summary shared_leg_report) (VStr "A-B") in
  length cs = 2%nat ∧
  map od_pair (df_od_summary shared_leg_report)
  = map (fun v => recover_od (@var_name plain_builtins v))
        (List.filter (has_tonnage shared_leg_outcome)
                     (@variables plain_builtins (build_lp m))) ∧
  Forall2 (fun r rec =>
             py_eqb (flight_leg rec) (VStr "A-B") = true ∧
             od_contributor rec = od_pair r ∧
             leg_od_cm rec = od_cm r ∧
             leg_tonnage rec = cargo_tonnage r ∧
             (length cs = 1%nat ->
                priority_type rec = "Only OD"%string ∧
                fill_priority_rank rec = Some 1%nat) ∧
             (length cs ≠ 1%nat ->
                ∃ direct, is_direct m (od_pair r) = Some direct ∧
                  priority_type rec = reference_label (top_among cs r) direct))
          cs (group_rows (df_leg_detail shared_leg_report) (VStr "A-B")).
Proof.
  split; [reflexivity|].
  apply (@C7_labels_follow_reference_rule plain_builtins
           (@build plain_builtins shared_leg_direct shared_leg_indirect)
           shared_leg_outcome shared_leg_report (VStr "A-B")).
  - reflexivity.
  - apply shared_leg_distinct.
Defined.

(** ** Skipped rows (lines 22-45) *)

(** A direct record that lacks one of its four columns changes nothing. *)
Lemma direct_row_skips_incomplete `{Builtins} (m : model) (r : row) (col : string) :
  col ∈ ["O-D"; "CM"; "AI Share"; "AI Cap"]%string ->
  row_get r col = None ->
  direct_row m r = m.
Proof.
  intros Hcol Hr. unfold direct_row.
  assert (read_direct r = None) as ->; [|done].
  unfold read_direct, float_or_zero.
  repeat (apply elem_of_cons in Hcol as [->|Hcol]); [| | | |by apply elem_of_nil in Hcol].
  - by rewrite Hr.
  - rewrite Hr. by destruct (row_get r "O-D").
  - rewrite Hr. destruct (row_get r "O-D"); [|done]. simpl.
    by destruct (row_get r "CM" ≫= py_float).
  - rewrite Hr. destruct (row_get r "O-D"); [|done]. simpl.
    destruct (row_get r "CM" ≫= py_float); [|done]. simpl.
    by destruct (row_get r "AI Share" ≫= _).
Qed.

Lemma direct_row_skips_incomplete_witness :
  @direct_row plain_builtins empty_model
    [("CM", VNum 10); ("AI Share", VNum 5); ("AI Cap", VNum 5)]%string
  = empty_model.
Proof.
  apply (@direct_row_skips_incomplete plain_builtins _ _ "O-D").
  - by left.
  - reflexivity.
Defined.

(** An indirect record that lacks its code, its CM, its share or a leg code
    changes nothing. *)
Lemma indirect_row_skips_incomplete `{Builtins} (m : model) (r : row) (col : string) :
  col ∈ ["O-D"; "CM"; "AI Share"; "1st Leg O-D"; "2nd Leg O-D"]%string ->
  row_get r col = None ->
  indirect_row m r = m.
Proof.
  intros Hcol Hr. unfold indirect_row.
  assert (read_indirect r = None) as ->; [|done].
  unfold read_indirect, float_or_zero.
  repeat (apply elem_of_cons in Hcol as [->|Hcol]); [| | | | |by apply elem_of_nil in Hcol].
  - by rewrite Hr.
  - rewrite Hr. by destruct (row_get r "O-D").
  - rewrite Hr. destruct (row_get r "O-D"); [|done]. simpl.
    by destruct (row_get r "CM" ≫= py_float).
  - rewrite Hr. destruct (row_get r "O-D"); [|done]. simpl.
    destruct (row_get r "CM" ≫= py_float); [|done]. simpl.
    by destruct (row_get r "AI Share" ≫= _).
  - rewrite Hr. destruct (row_get r "O-D"); [|done]. simpl.
    destruct (row_get r "CM" ≫= py_float); [|done]. simpl.
    destruct (row_get r "AI Share" ≫= _); [|done]. simpl.
    by destruct (row_get r "1st Leg O-D").
Qed.

Lemma indirect_row_skips_incomplete_witness :
  @indirect_row plain_builtins empty_model
    [("O-D", VStr "A-C"); ("CM", VNum 20); ("AI Share", VNum 30);
     ("1st Leg O-D", VStr "A-B")]%string
  = empty_model.
Proof.
  apply (@indirect_row_skips_incomplete plain_builtins _ _ "2nd Leg O-D").
  - by do 4 right; left.
  - reflexivity.
Defined.


(** ** Blank cells (lines 15-16, 24-29) *)

Lemma parse_sheet_rows sh : parse_sheet sh = map parse_row sh.
Proof. done. Qed.

Lemma row_get_parse_row r col :
  row_get (parse_row r) col = fill <$> raw_get r col.
Proof.
  induction r as [|[c v] r IH]; simpl; [done|].
  destruct (String.eqb c col); [done|]. apply IH.
Qed.

Lemma fill_empty_cell c : empty_cell c -> fill c = VNum 0.
Proof. by intros [->| ->]. Qed.

(** A direct record whose capacity cell is blank (or a hyphen) is filed
    with capacity 0: its leg gets capacity 0 and its path the ceiling
    min(share, 0), which is not positive. *)
Lemma blank_capacity_is_filed_as_zero `{Builtins} (m : model) (rr : raw_row)
    (c : cell) (od : pyval) (cmv ms cap : Q) :
  raw_get rr "AI Cap" = Some c ->
  empty_cell c ->
  read_direct (parse_row rr) = Some (od, cmv, ms, cap) ->
  cap = 0 ∧
  dict_get od (all_od_paths (direct_row m (parse_row rr)))
  = Some {| legs := [od]; cm := cmv; max_allocable := py_min ms 0 |} ∧
  dict_get od (leg_capacities (direct_row m (parse_row rr))) = Some 0 ∧
  py_min ms 0 <= 0.
Proof.
  intros Hc He Hr.
  assert (Hz : float_or_zero (parse_row rr) "AI Cap" = Some 0).
  { unfold float_or_zero. rewrite row_get_parse_row, Hc. simpl.
    by rewrite (fill_empty_cell c He). }
  assert (cap = 0) as ->.
  { unfold read_direct in Hr. rewrite Hz in Hr.
    destruct (row_get (parse_row rr) "O-D"); simpl in Hr; [|done].
    destruct (row_get (parse_row rr) "CM" ≫= py_float); simpl in Hr; [|done].
    destruct (float_or_zero (parse_row rr) "AI Share"); simpl in Hr; [|done].
    by injection Hr as _ _ _ <-. }
  split; [done|]. unfold direct_row. rewrite Hr. simpl.
  rewrite !dict_get_set, py_eqb_refl. do 2 (split; [done|]).
  destruct (py_min_cases ms 0) as [[-> Hle]|[-> _]]; [done|apply Qle_refl].
Qed.

Lemma blank_capacity_is_filed_as_zero_witness :
  let rr := [("O-D", Text "A-B"); ("CM", Number 10); ("AI Share", Number 5);
             ("AI Cap", Blank)]%string in
  (0 : Q) = 0 ∧
  dict_get (VStr "A-B")
    (all_od_paths (@direct_row plain_builtins empty_model (parse_row rr)))
  = Some {| legs := [VStr "A-B"]; cm := 10; max_allocable := py_min 5 0 |} ∧
  dict_get (VStr "A-B")
    (leg_capacities (@direct_row plain_builtins empty_model (parse_row rr)))
  = Some 0 ∧
  py_min 5 0 <= 0.
Proof.
  apply (@blank_capacity_is_filed_as_zero plain_builtins empty_model _ Blank).
  - reflexivity.
  - by left.
  - reflexivity.
Defined.

(** A direct record whose code cell is blank (or a hyphen) is not skipped:
    it is filed under the number 0, path and leg capacity. *)
Lemma blank_code_is_filed_under_zero `{Builtins} (m : model) (rr : raw_row)
    (c : cell) (od : pyval) (cmv ms cap : Q) :
  raw_get rr "O-D" = Some c ->
  empty_cell c ->
  read_direct (parse_row rr) = Some (od, cmv, ms, cap) ->
  od = VNum 0 ∧
  dict_get (VNum 0) (all_od_paths (direct_row m (parse_row rr)))
  = Some {| legs := [VNum 0]; cm := cmv; max_allocable := py_min ms cap |} ∧
  dict_get (VNum 0) (leg_capacities (direct_row m (parse_row rr))) = Some cap.
Proof.
  intros Hc He Hr.
  assert (od = VNum 0) as ->.
  { unfold read_direct in Hr. rewrite (row_get_parse_row rr "O-D"), Hc in Hr.
    simpl in Hr. rewrite (fill_empty_cell c He) in Hr.
    repeat bind_case Hr. by injection Hr as <-. }
  split; [done|]. unfold direct_row. rewrite Hr. simpl.
  by rewrite !dict_get_set, py_eqb_refl.
Qed.

Lemma blank_code_is_filed_under_zero_witness :
  let rr := [("O-D", Blank); ("CM", Number 10); ("AI Share", Number 5);
             ("AI Cap", Number 7)]%string in
  VNum 0 = VNum 0 ∧
  dict_get (VNum 0) (all_od_paths (@direct_row plain_builtins empty_model (parse_row rr)))
  = Some {| legs := [VNum 0]; cm := 10; max_allocable := py_min 5 7 |} ∧
  dict_get (VNum 0) (leg_capacities (@direct_row plain_builtins empty_model (parse_row rr)))
  = Some 7.
Proof.
  apply (@blank_code_is_filed_under_zero plain_builtins empty_model _ Blank).
  - reflexivity.
  - by left.
  - reflexivity.
Defined.

(** ** What the two loops keep (lines 19-45) *)

Lemma dict_set_entries {V} (P : pyval * V -> Prop) k v (d : list (pyval * V)) :
  (∀ k', py_eqb k' k = true -> P (k', v)) ->
  Forall P d -> Forall P (dict_set k v d).
Proof.
  intros Hv Hd. induction Hd as [|[a w] d Ha Hd IH]; simpl.
  - repeat constructor. apply Hv, py_eqb_refl.
  - destruct (py_eqb a k) eqn:E; constructor; auto.
Qed.

Lemma foldl_set_entry_entries {V} (P : pyval * V -> Prop) (es d : list (pyval * V)) :
  (∀ e k', e ∈ es -> py_eqb k' e.1 = true -> P (k', e.2)) ->
  Forall P d -> Forall P (foldl set_entry d es).
Proof.
  revert d. induction es as [|e es IH]; intros d Hes Hd; simpl; [done|].
  apply IH.
  - intros e' k' He'. apply Hes. by right.
  - apply dict_set_entries; [|done]. intros k'. apply Hes. by left.
Qed.

Lemma foldl_min_claim_distinct cl d :
  distinct_dict d -> distinct_dict (foldl min_claim d cl).
Proof.
  revert d. induction cl as [|c cl IH]; intros d Hd; simpl; [done|].
  apply IH. by apply dict_set_distinct.
Qed.

(** Every entry of the registry a build leaves is either a single leg that
    equals the entry's own code (a direct record) or a pair of legs (an
    indirect record): no path is empty or longer than two legs. *)
Lemma registry_entries_well_shaped `{Builtins} (sheet0 sheet1 : list raw_row) :
  Forall well_shaped (all_od_paths (build sheet0 sheet1)).
Proof.
  unfold build. rewrite build_rows_paths.
  apply foldl_set_entry_entries; [|constructor].
  intros [od p] k' He Hk. unfold entries in He.
  apply elem_of_app in He as [He|He];
    apply list_elem_of_omap in He as (r & _ & He).
  - unfold direct_entry in He.
    destruct (read_direct r) as [[[[od' c] ms] cap]|]; [|done].
    injection He as <- <-. left. by exists od'.
  - apply read_indirect_inv in He as (l1 & l2 & _ & _ & _ & _ & _ & Hl).
    right. simpl. by rewrite Hl.
Qed.

(** Both dictionaries of a build hold each key once (under Python's [==]),
    so that looking up a stored key gives the value stored beside it. *)
Lemma build_dictionaries_distinct `{Builtins} (sheet0 sheet1 : list raw_row) :
  let m := build sheet0 sheet1 in
  distinct_dict (all_od_paths m) ∧ distinct_dict (leg_capacities m) ∧
  (∀ k p, (k, p) ∈ all_od_paths m -> dict_get k (all_od_paths m) = Some p) ∧
  (∀ k c, (k, c) ∈ leg_capacities m -> dict_get k (leg_capacities m) = Some c).
Proof.
  assert (distinct_dict (all_od_paths (build sheet0 sheet1))) as Hp
    by apply build_distinct.
  assert (distinct_dict (leg_capacities (build sheet0 sheet1))) as Hc.
  { unfold build. rewrite build_rows_caps.
    apply foldl_min_claim_distinct, foldl_set_entry_distinct. constructor. }
  simpl. repeat split; [done|done| |]; intros k v; by apply dict_get_distinct.
Qed.

Lemma min_claim_le k c caps cl :
  dict_get k caps = Some c ->
  ∃ c', dict_get k (min_claim caps cl) = Some c' ∧ c' <= c.
Proof.
  intros Hk. unfold min_claim. rewrite dict_get_set.
  destruct (py_eqb cl.1 k) eqn:E.
  - rewrite (dict_get_congr _ _ caps E), Hk. simpl.
    eexists; split; [done|].
    destruct (py_min_cases c cl.2) as [[-> _]|[-> Hle]]; [apply Qle_refl|done].
  - exists c. split; [done|apply Qle_refl].
Qed.

Lemma foldl_min_claim_le k c caps cls :
  dict_get k caps = Some c ->
  ∃ c', dict_get k (foldl min_claim caps cls) = Some c' ∧ c' <= c.
Proof.
  revert c caps. induction cls as [|cl cls IH]; intros c caps Hk; simpl.
  - exists c. split; [done|apply Qle_refl].
  - destruct (min_claim_le k c caps cl Hk) as (c1 & H1 & Hle1).
    destruct (IH c1 _ H1) as (c2 & H2 & Hle2).
    exists c2. split; [done|]. by apply Qle_trans with c1.
Qed.

(** The indirect loop never removes a leg from the capacity mapping and
    never raises the capacity it holds: whatever rows follow, a leg's entry
    stays and can only go down. *)
Lemma indirect_rows_never_raise_capacity `{Builtins} (m : model)
    (rows : list row) (k : pyval) (c : Q) :
  dict_get k (leg_capacities m) = Some c ->
  ∃ c', dict_get k (leg_capacities (foldl indirect_row m rows)) = Some c' ∧
        c' <= c.
Proof.
  intros Hk. rewrite indirect_loop_caps. by apply foldl_min_claim_le.
Qed.

Lemma indirect_rows_never_raise_capacity_witness :
  ∃ c', dict_get (VStr "A-B")
          (leg_capacities
             (@foldl model row (@indirect_row plain_builtins)
                (@build plain_builtins shared_leg_direct [])
                (parse_sheet shared_leg_indirect))) = Some c' ∧
        c' <= 50.
Proof.
  apply (@indirect_rows_never_raise_capacity plain_builtins). reflexivity.
Defined.

(** A direct record touches the entries of its own code only: the path and
    the capacity filed under any other code are left as they were. *)
Lemma direct_row_leaves_other_codes `{Builtins} (m : model) (r : row)
    (od k : pyval) (cmv ms cap : Q) :
  read_direct r = Some (od, cmv, ms, cap) ->
  py_eqb od k = false ->
  dict_get k (all_od_paths (direct_row m r)) = dict_get k (all_od_paths m) ∧
  dict_get k (leg_capacities (direct_row m r)) = dict_get k (leg_capacities m).
Proof.
  intros Hr Hk. unfold direct_row. rewrite Hr. simpl.
  by rewrite !dict_get_set, Hk.
Qed.

Lemma direct_row_leaves_other_codes_witness :
  let m := @build plain_builtins shared_leg_direct [] in
  let r := parse_row (direct_record "B-C" 7 3 4) in
  dict_get (VStr "A-B") (all_od_paths (@direct_row plain_builtins m r))
  = dict_get (VStr "A-B") (all_od_paths m) ∧
  dict_get (VStr "A-B") (leg_capacities (@direct_row plain_builtins m r))
  = dict_get (VStr "A-B") (leg_capacities m).
Proof.
  apply (@direct_row_leaves_other_codes plain_builtins _ _ (VStr "B-C") _ 7 3 4);
    reflexivity.
Defined.

(** An indirect record changes the registry under its own code only, and
    the capacity mapping under the legs it names only. *)
Lemma indirect_row_leaves_other_codes `{Builtins} (m : model) (r : row)
    (od k : pyval) (p : od_path) :
  read_indirect r = Some (od, p) ->
  (py_eqb od k = false ->
   dict_get k (all_od_paths (indirect_row m r)) = dict_get k (all_od_paths m)) ∧
  (Forall (fun leg => py_eqb leg k = false) (legs p) ->
   dict_get k (leg_capacities (indirect_row m r)) = dict_get k (leg_capacities m)).
Proof.
  intros Hr. split.
  - intros Hk. unfold indirect_row. rewrite Hr. simpl.
    by rewrite dict_get_set, Hk.
  - intros Hl. unfold indirect_row. rewrite Hr. simpl.
    generalize (leg_capacities m) as caps. generalize 0%nat as i.
    induction Hl as [|leg ls Hleg Hl IH]; intros i caps; simpl; [done|].
    destruct (float_or_zero r (cap_col i)); [|done].
    rewrite IH, dict_get_set. by rewrite Hleg.
Qed.

Lemma indirect_row_leaves_other_codes_witness :
  let m := @build plain_builtins shared_leg_direct [] in
  let r := parse_row (indirect_record_st "A-C" 20 30 "X-Y" 50 "B-C" 40) in
  dict_get (VStr "A-B") (all_od_paths (@indirect_row plain_builtins m r))
  = dict_get (VStr "A-B") (all_od_paths m) ∧
  dict_get (VStr "A-B") (leg_capacities (@indirect_row plain_builtins m r))
  = dict_get (VStr "A-B") (leg_capacities m).
Proof.
  destruct (@indirect_row_leaves_other_codes plain_builtins
              (@build plain_builtins shared_leg_direct [])
              (parse_row (indirect_record_st "A-C" 20 30 "X-Y" 50 "B-C" 40))
              (VStr "A-C") (VStr "A-B")
              {| legs := [VStr "X-Y"; VStr "B-C"]; cm := 20; max_allocable := 30 |}
              eq_refl) as [Hpaths Hcaps].
  split.
  - apply Hpaths. reflexivity.
  - apply Hcaps. repeat constructor.
Defined.

(** ** The linear program that is built (lines 48-54) *)

Lemma lin_sum_nonneg (y : pyval -> Q) vs :
  Forall (fun v => 0 <= y v) vs -> 0 <= lin_sum y vs.
Proof.
  induction 1 as [|v vs Hv _ IH]; simpl; [apply Qle_refl|]. lra.
Qed.

(** The program built from a model has a feasible point exactly when no
    ceiling and no leg capacity of the model is negative, and its objective
    is bounded on the feasible points whatever the model: the solver can
    never meet an unbounded program. *)
Lemma lp_feasible_iff_nonneg (m : model) :
  ((∃ y, lp_feasible (build_lp m) y) <-> nonneg_model m) ∧
  ∃ bound, ∀ y, lp_feasible (build_lp m) y -> objective_at (build_lp m) y <= bound.
Proof.
  split; [split|].
  - intros [y [Hlegs Hceil]%lp_feasible_build_lp]. split.
    + rewrite Forall_forall. intros [od p] Hin.
      destruct (Hceil od p Hin) as [H0 H1]. simpl. lra.
    + rewrite Forall_forall. intros [leg cap] Hin. simpl.
      eapply Qle_trans; [|apply (Hlegs leg cap Hin)].
      apply lin_sum_nonneg. rewrite Forall_map, Forall_forall.
      intros [od p] [Hin' _]%elem_of_List_filter.
      by destruct (Hceil od p Hin').
  - intros Hm. exists (fun _ => 0). by apply origin_feasible.
  - eexists. intros y [_ Hceil]%lp_feasible_build_lp.
    rewrite objective_build_lp. by apply objective_bounded.
Qed.

(** ** Codes that cannot be read back (lines 49 and 62) *)

Lemma trans_char_legal c :
  negb (existsb (Ascii.eqb (trans_char c)) illegal_chars) = true.
Proof. destruct c as [[] [] [] [] [] [] [] []]; reflexivity. Qed.

Lemma legal_not_forbidden c :
  negb (existsb (Ascii.eqb c) illegal_chars) = true ->
  Ascii.eqb "_" c = false -> negb (forbidden c) = true.
Proof. destruct c as [[] [] [] [] [] [] [] []]; vm_compute; congruence. Qed.

Lemma all_chars_translate s :
  all_chars (fun c => negb (existsb (Ascii.eqb c) illegal_chars)) (translate s) = true.
Proof.
  induction s as [|c s IH]; [done|]. cbn [translate all_chars].
  by rewrite trans_char_legal, IH.
Qed.

Lemma all_chars_replace_drop f old k s :
  all_chars f s = true -> all_chars f (replace_from old "" k s) = true.
Proof.
  revert k. induction s as [|c s IH]; intros k; [done|].
  cbn [all_chars replace_from]. intros [Hc Hs]%andb_prop.
  destruct k as [|k]; [|by apply IH].
  destruct (String.prefix old (String c s)).
  - change ("" +:+ ?x)%string with x. by apply IH.
  - cbn [all_chars]. by rewrite Hc, IH.
Qed.

Lemma all_chars_replace_underscore s :
  all_chars (fun c => negb (existsb (Ascii.eqb c) illegal_chars)) s = true ->
  all_chars (fun c => negb (forbidden c)) (replace_from "_" "-" 0 s) = true.
Proof.
  induction s as [|c s IH]; [done|].
  cbn [all_chars]. intros [Hc Hs]%andb_prop. rewrite replace_char_step.
  destruct (Ascii.eqb "_" c) eqn:E.
  - change ("-" +:+ ?x)%string with (String "-" x). cbn [all_chars].
    by rewrite IH.
  - cbn [all_chars]. by rewrite (legal_not_forbidden c Hc E), IH.
Qed.

Lemma recovered_code_is_clean `{Builtins} od :
  clean_code (recover_od (var_name od)) = true.
Proof.
  unfold recover_od, var_name, py_replace. cbn [clean_code].
  apply all_chars_replace_underscore, all_chars_replace_drop, all_chars_translate.
Qed.

(** A code read back from a variable name is always text without an
    underscore, a space or one of the characters + [ ] > /. So a code that
    is a number (a numeric or blank cell), or that holds one of these
    characters, never comes back as a key equal to itself. *)
Lemma unclean_code_never_read_back `{Builtins} (od : pyval) :
  clean_code od = false ->
  py_eqb (recover_od (var_name od)) od = false.
Proof.
  intros Hod. pose proof (recovered_code_is_clean od) as Hrec.
  destruct (py_eqb (recover_od (var_name od)) od) eqn:E; [|done].
  unfold recover_od in *. destruct od as [s|q]; simpl in E; [|done].
  apply String.eqb_eq in E. rewrite E in Hrec. simpl in Hrec, Hod. congruence.
Qed.

Lemma unclean_code_never_read_back_witness :
  py_eqb (recover_od (@var_name plain_builtins (VStr "DEL_BOM"))) (VStr "DEL_BOM")
  = false.
Proof.
  apply (@unclean_code_never_read_back plain_builtins). reflexivity.
Defined.

(** ** The rows of the OD summary (lines 59-67) *)

Lemma round_half_even_small x : 0 <= x -> x < 1 # 2 -> round_half_even x = 0%Z.
Proof.
  intros H0 H1. unfold round_half_even.
  assert (Hf : Qfloor x = 0%Z).
  { pose proof (Qfloor_le x) as Hle.
    pose proof (Qfloor_resp_le 0 x H0) as Hge. change (Qfloor 0) with 0%Z in Hge.
    assert (Hlt : inject_Z (Qfloor x) < inject_Z 1) by (change (inject_Z 1) with 1; lra).
    rewrite <- Zlt_Qlt in Hlt. lia. }
  rewrite Hf. change (inject_Z 0) with 0.
  destruct (Qcompare_spec (x - 0) (1 # 2)) as [E|E|E]; [lra|done|lra].
Qed.

Lemma od_summary_loop_rows `{Builtins} m o vars rows :
  od_summary_loop m (varValue o) vars = Some rows ->
  Forall2 (fun v r =>
             ∃ t p, varValue o v = Some t ∧ 0 < t ∧
                    od_pair r = recover_od (var_name v) ∧
                    dict_get (od_pair r) (all_od_paths m) = Some p ∧
                    od_cm r = cm p ∧
                    cargo_tonnage r = py_round2 t ∧
                    od_profit r = py_round2 (float_mul t (cm p)))
          (List.filter (has_tonnage o) vars) rows.
Proof.
  revert rows. induction vars as [|v vars IH]; intros rows; simpl.
  - intros [= <-]. constructor.
  - unfold has_tonnage at 1. destruct (varValue o v) as [t|] eqn:Ev; simpl; [|done].
    destruct (Qltb 0 t) eqn:Et; [|by apply IH].
    destruct (dict_get _ _) as [props|] eqn:Ep; simpl; [|done].
    destruct (od_summary_loop _ _ vars) as [rows'|]; simpl; [|done].
    intros [= <-]. constructor; [|by apply IH].
    exists t, props. apply Qltb_true in Et. by repeat split.
Qed.

(** The OD summary of a run has one row for each variable with a positive
    value and none for the others, in the order of the variables. The row
    carries the code read back from the variable's name, the CM the
    registry holds under that code, the value rounded to two decimals and
    the float product of value and CM rounded to two decimals. The tonnage
    shown is never negative, and it is away from the value by at most
    0.005 and the float error of reading the decimal back, which is below
    2^-52 (1 + value); a positive value below 0.005 is listed with
    tonnage 0. *)
Lemma od_summary_lists_positive_values `{Builtins} (m : model) (o : lp_outcome)
    (rep : report) :
  run m o = Some rep ->
  Forall2 (fun v r =>
             ∃ t p, varValue o v = Some t ∧ 0 < t ∧
                    od_pair r = recover_od (var_name v) ∧
                    dict_get (od_pair r) (all_od_paths m) = Some p ∧
                    od_cm r = cm p ∧
                    cargo_tonnage r = py_round2 t ∧
                    od_profit r = py_round2 (float_mul t (cm p)) ∧
                    0 <= cargo_tonnage r ∧
                    Qabs (cargo_tonnage r - t) <= (1 # 200) + pow2 (-52) * (1 + t) ∧
                    (t < 1 # 200 -> cargo_tonnage r == 0))
          (List.filter (has_tonnage o) (variables (build_lp m)))
          (df_od_summary rep).
Proof.
  intros Hrun. destruct (run_inv _ _ _ Hrun) as (rows & _ & Hrows & _ & _ & _ & ->).
  eapply Forall2_impl; [by apply od_summary_loop_rows|].
  intros v r (t & p & Hv & Ht & Hod & Hp & Hcm & Hton & Hprof).
  exists t, p. do 7 (split; [done|]). rewrite Hton. split; [|split].
  - apply py_round2_nonneg. by apply Qlt_le_weak.
  - pose proof (py_round2_close t) as Hc.
    rewrite (Qabs_pos t) in Hc by by apply Qlt_le_weak. done.
  - intros Hsmall. unfold py_round2, round2.
    by rewrite (round_half_even_small (t * 100)) by lra.
Qed.

Lemma od_summary_lists_positive_values_witness :
  Forall2 (fun v r =>
             ∃ t p, varValue shared_leg_outcome v = Some t ∧ 0 < t ∧
                    od_pair r = recover_od (@var_name plain_builtins v) ∧
                    dict_get (od_pair r)
                      (all_od_paths (@build plain_builtins shared_leg_direct
                                       shared_leg_indirect)) = Some p ∧
                    od_cm r = cm p ∧
                    cargo_tonnage r = py_round2 t ∧
                    od_profit r = py_round2 (float_mul t (cm p)) ∧
                    0 <= cargo_tonnage r ∧
                    Qabs (cargo_tonnage r - t) <= (1 # 200) + pow2 (-52) * (1 + t) ∧
                    (t < 1 # 200 -> cargo_tonnage r == 0))
          (List.filter (has_tonnage shared_leg_outcome)
             (@variables plain_builtins
                (build_lp (@build plain_builtins shared_leg_direct shared_leg_indirect))))
          (df_od_summary shared_leg_report).
Proof.
  apply (@od_summary_lists_positive_values plain_builtins). reflexivity.
Defined.

(** ** The leg breakdown and the leg summary (lines 70-86, 121) *)

Lemma qsum_app {A} (g : A -> Q) l1 l2 : qsum g (l1 ++ l2) == qsum g l1 + qsum g l2.
Proof.
  unfold qsum. induction l1 as [|x l1 IH]; simpl; [ring|]. rewrite IH. ring.
Qed.



Lemma qsum_const {A} (c : Q) (l : list A) :
  qsum (fun _ => c) l == inject_Z (Z.of_nat (length l)) * c.
Proof.
  unfold qsum. induction l as [|x l IH]; [simpl; ring|].
  cbn [foldr length]. rewrite IH, Nat2Z.inj_succ, <- Z.add_1_r, inject_Z_plus.
  change (inject_Z 1) with 1. ring.
Qed.

(** The rows of the leg breakdown that one row of the per-OD output
    makes, in the columns the classification leaves alone. *)
Lemma leg_records_rows m rows recs :
  leg_records m rows = Some recs ->
  Forall (fun r => is_Some (dict_get (od_pair r) (all_od_paths m))) rows ∧
  map static recs
  = concat (map (fun r =>
                   map (fun leg => (leg, od_pair r, od_cm r, cargo_tonnage r,
                                    float_mul (cargo_tonnage r) (od_cm r)))
                       (path_legs m (od_pair r)))
                rows).
Proof.
  unfold leg_records. intros Hr.
  destruct (mapM _ rows) as [parts|] eqn:Hm; simpl in Hr; [|done].
  injection Hr as <-. apply mapM_Some_1 in Hm.
  induction Hm as [|r part rows parts Hr _ [IH1 IH2]]; [by split|].
  destruct (dict_get (od_pair r) (all_od_paths m)) as [props|] eqn:Ep;
    simpl in Hr; [|done].
  injection Hr as <-. split.
  - constructor; [by rewrite Ep|done].
  - cbn [concat map]. rewrite map_app, IH2. f_equal.
    unfold path_legs. rewrite Ep. simpl. by rewrite map_map.
Qed.

(** The leg breakdown of a run has, for each row of the per-OD output in
    turn, one record for every leg of the row's path (which exists): the
    record carries the leg, the row's code and CM, the row's whole tonnage
    and the float product of that tonnage and the CM. So the table has as
    many records as the rows' paths have legs, and its tonnage column sums
    every market once per leg: a two-leg market is counted twice. *)
Lemma leg_breakdown_counts_each_leg `{Builtins} (m : model) (o : lp_outcome)
    (rep : report) :
  run m o = Some rep ->
  Forall (fun r => is_Some (dict_get (od_pair r) (all_od_paths m)))
         (df_od_summary rep) ∧
  map static (df_leg_detail rep)
  = concat (map (fun r =>
                   map (fun leg => (leg, od_pair r, od_cm r, cargo_tonnage r,
                                    float_mul (cargo_tonnage r) (od_cm r)))
                       (path_legs m (od_pair r)))
                (df_od_summary rep)) ∧
  length (df_leg_detail rep)
  = sum_list (map (fun r => legs_count m (od_pair r)) (df_od_summary rep)) ∧
  qsum leg_tonnage (df_leg_detail rep)
  == qsum (fun r => legs_factor m r * cargo_tonnage r) (df_od_summary rep).
Proof.
  intros Hrun.
  destruct (run_inv _ _ _ Hrun) as (rows & recs & _ & Hrecs & Hc & _ & ->).
  destruct (classify_spec _ _ _ Hc) as [Hst _].
  destruct (leg_records_rows m rows recs Hrecs) as [Hpaths Hrows].
  rewrite <- Hst in Hrows. split; [done|]. split; [done|]. split.
  - rewrite <- (length_map static), Hrows. clear.
    induction rows as [|r rows IH]; [done|].
    cbn [map concat sum_list]. by rewrite length_app, length_map, IH.
  - change (qsum leg_tonnage (df_leg_detail rep))
      with (qsum (fun r => (static r).1.2) (df_leg_detail rep)).
    rewrite <- (qsum_map (fun s : pyval * pyval * Q * Q * Q => s.1.2) static), Hrows.
    clear. induction rows as [|r rows IH]; [reflexivity|].
    cbn [map concat]. rewrite qsum_app, IH, qsum_map. cbn [fst snd].
    change (qsum (fun r => legs_factor m r * cargo_tonnage r) (r :: rows))
      with (legs_factor m r * cargo_tonnage r
            + qsum (fun r => legs_factor m r * cargo_tonnage r) rows).
    rewrite qsum_const. reflexivity.
Qed.

Lemma leg_breakdown_counts_each_leg_witness :
  let m := @build plain_builtins shared_leg_direct shared_leg_indirect in
  Forall (fun r => is_Some (dict_get (od_pair r) (all_od_paths m)))
         (df_od_summary shared_leg_report) ∧
  map static (df_leg_detail shared_leg_report)
  = concat (map (fun r =>
                   map (fun leg => (leg, od_pair r, od_cm r, cargo_tonnage r,
                                    float_mul (cargo_tonnage r) (od_cm r)))
                       (path_legs m (od_pair r)))
                (df_od_summary shared_leg_report)) ∧
  length (df_leg_detail shared_leg_report)
  = sum_list (map (fun r => legs_count m (od_pair r))
                  (df_od_summary shared_leg_report)) ∧
  qsum leg_tonnage (df_leg_detail shared_leg_report)
  == qsum (fun r => legs_factor m r * cargo_tonnage r)
          (df_od_summary shared_leg_report).
Proof.
  apply (@leg_breakdown_counts_each_leg plain_builtins _ shared_leg_outcome).
  reflexivity.
Defined.







(** ** Every record is classified (lines 85-119) *)

Lemma label_in_labels h d :
  label h d ∈ priority_labels ∧ label h d ≠ "Only OD"%string.
Proof. destruct h, d; (split; [apply list_elem_of_In; simpl; tauto|done]). Qed.

(** In the leg breakdown of a run no record keeps the initial values of the
    priority columns: each has a rank between 1 and the number of records
    of its leg, and one of the five labels, "Only OD" exactly when it is
    alone on its leg. *)
Lemma every_record_is_classified `{Builtins} (m : model) (o : lp_outcome)
    (rep : report) (i : nat) (r : leg_row) :
  run m o = Some rep ->
  df_leg_detail rep !! i = Some r ->
  let n := length (group_rows (df_leg_detail rep) (flight_leg r)) in
  ∃ k, fill_priority_rank r = Some k ∧ (1 <= k <= n)%nat ∧
       priority_type r ∈ priority_labels ∧
       (priority_type r = "Only OD"%string <-> n = 1%nat).
Proof.
  intros Hrun Hi n. destruct (run_classified _ _ _ Hrun) as [t0 Hc].
  destruct (classify_spec _ _ _ Hc) as [Hst _].
  assert (Hg : group_indices (df_leg_detail rep) (flight_leg r)
               = group_indices t0 (flight_leg r)) by by apply group_indices_static.
  assert (Hin : i ∈ group_indices t0 (flight_leg r)).
  { rewrite <- Hg. apply elem_of_group_indices. exists r. split; [done|apply py_eqb_refl]. }
  assert (Hn : n = length (group_indices t0 (flight_leg r))).
  { unfold n. by rewrite group_rows_length, Hg. }
  destruct (decide (n = 1%nat)) as [Hone|Hmany].
  - rewrite Hn in Hone.
    destruct (group_indices t0 (flight_leg r)) as [|idx [|]] eqn:E; try done.
    apply list_elem_of_singleton in Hin as ->.
    destruct (classified_one _ _ _ _ _ Hc E) as (r' & Hr' & Hl & Hk).
    rewrite Hi in Hr'. injection Hr' as <-.
    exists 1%nat. rewrite Hl, Hn. simpl. repeat split; try done; try lia.
    apply list_elem_of_In. simpl. tauto.
  - assert (Hlen : length (group_indices t0 (flight_leg r)) ≠ 1%nat) by by rewrite <- Hn.
    destruct (classified_many _ _ _ (flight_leg r) Hc Hlen) as (keys & Hk & _ & Hrows).
    pose proof (sort_keys_labels _ _ _ _ Hk) as Hlab.
    rewrite <- Hlab in Hin. apply list_elem_of_fmap in Hin as (key & -> & Hkey).
    rewrite <- (sort_by_perm before keys) in Hkey.
    apply list_elem_of_lookup_1 in Hkey as [p Hp].
    destruct (Hrows p key Hp) as (r' & Hr' & _ & _ & _ & Hl & Hrk).
    rewrite Hi in Hr'. injection Hr' as <-.
    apply lookup_lt_Some in Hp.
    rewrite (Permutation_length (sort_by_perm before keys)) in Hp.
    rewrite <- (length_map (fun k : sort_key => k.1.1)), Hlab, <- Hn in Hp.
    destruct (label_in_labels (Qeq_bool key.1.2 (group_top keys)) key.2) as [Hl1 Hl2].
    exists (S p). rewrite Hl. repeat split; try done; lia.
Qed.

Lemma every_record_is_classified_witness :
  ∃ r, df_leg_detail shared_leg_report !! 1%nat = Some r ∧
    ∃ k, fill_priority_rank r = Some k ∧
         (1 <= k <= length (group_rows (df_leg_detail shared_leg_report)
                                       (flight_leg r)))%nat ∧
         priority_type r ∈ priority_labels ∧
         (priority_type r = "Only OD"%string <->
          length (group_rows (df_leg_detail shared_leg_report) (flight_leg r))
          = 1%nat).
Proof.
  eexists. split; [reflexivity|].
  apply (@every_record_is_classified plain_builtins
           (@build plain_builtins shared_leg_direct shared_leg_indirect)
           shared_leg_outcome shared_leg_report 1%nat); reflexivity.
Defined.

(** ** What the classification does not look at (lines 88-119) *)

Lemma rank_view_legs t t' :
  map rank_view t = map rank_view t' -> map flight_leg t = map flight_leg t'.
Proof.
  intros E.
  change (map flight_leg t) with (map (fun r => (rank_view r).1.1.1.1) t).
  change (map flight_leg t') with (map (fun r => (rank_view r).1.1.1.1) t').
  by rewrite <- !(map_map rank_view (fun v => v.1.1.1.1)), E.
Qed.

Lemma indices_from_legs k t t' leg :
  map flight_leg t = map flight_leg t' -> indices_from k t leg = indices_from k t' leg.
Proof.
  revert k t'. induction t as [|r t IH]; intros k [|r' t']; simpl; try done.
  intros [= E1 Et]. by rewrite E1, (IH (S k) t' Et).
Qed.

Lemma lookup_rank_view t t' i :
  map rank_view t = map rank_view t' -> rank_view <$> t !! i = rank_view <$> t' !! i.
Proof.
  intros E. change (rank_view <$> t = rank_view <$> t') in E.
  by rewrite <- !list_lookup_fmap, E.
Qed.

Lemma sort_keys_view m t t' group :
  map rank_view t = map rank_view t' -> sort_keys m t group = sort_keys m t' group.
Proof.
  intros E. unfold sort_keys. apply mapM_ext. intros i.
  pose proof (lookup_rank_view _ _ i E) as Hi.
  destruct (t !! i) as [r|], (t' !! i) as [r'|]; simpl in *; try done.
  injection Hi as _ E2 E3 _ _. by rewrite E2, E3.
Qed.

Lemma set_priority_view i l k t t' :
  map rank_view t = map rank_view t' ->
  map rank_view (set_priority i l k t) = map rank_view (set_priority i l k t').
Proof.
  revert i t'. induction t as [|r t IH]; intros i [|r' t']; try done.
  intros [= E1 E2 E3 E4 E5 Et].
  destruct i as [|i]; unfold set_priority; simpl.
  - f_equal; [|done]. unfold rank_view. simpl. by rewrite E1, E2, E3.
  - f_equal; [|by apply IH]. unfold rank_view. by rewrite E1, E2, E3, E4, E5.
Qed.

Lemma foldl_write_view top ws t t' :
  map rank_view t = map rank_view t' ->
  map rank_view (foldl (write_rank top) t ws)
  = map rank_view (foldl (write_rank top) t' ws).
Proof.
  revert t t'. induction ws as [|w ws IH]; intros t t' E; simpl; [done|].
  apply IH. by apply set_priority_view.
Qed.

Lemma classify_group_view m t t' leg :
  map rank_view t = map rank_view t' ->
  map rank_view <$> classify_group m t leg = map rank_view <$> classify_group m t' leg.
Proof.
  intros E. unfold classify_group.
  rewrite !group_indices_from, (indices_from_legs 0 t t' leg (rank_view_legs _ _ E)).
  rewrite (sort_keys_view m t t' _ E).
  destruct (indices_from 0 t' leg) as [|idx [|idx' rest]];
    try (destruct (sort_keys m t' _) as [keys|]; simpl; [|done];
         f_equal; by apply foldl_write_view).
  simpl. f_equal. by apply set_priority_view.
Qed.

Lemma classify_fold_view m ks a a' :
  map rank_view <$> a = map rank_view <$> a' ->
  map rank_view <$> foldl (classify_step m) a ks
  = map rank_view <$> foldl (classify_step m) a' ks.
Proof.
  revert a a'. induction ks as [|k ks IH]; intros a a' E; simpl; [done|].
  apply IH. destruct a as [t|], a' as [t'|]; simpl in *; try done.
  injection E as E. by apply classify_group_view.
Qed.

(** Labels and ranks do not depend on how much tonnage a record carries:
    two tables that agree in every column but the tonnage and the profit
    are classified alike, row by row, and the classification fails on the
    one exactly when it fails on the other. *)
Lemma classification_ignores_tonnage (m : model) (t1 t2 : list leg_row) :
  map rank_view t1 = map rank_view t2 ->
  map rank_view <$> classify m t1 = map rank_view <$> classify m t2.
Proof.
  intros E. unfold classify. rewrite (rank_view_legs _ _ E).
  destruct t1 as [|r1 t1], t2 as [|r2 t2]; try done.
  by apply classify_fold_view; simpl; f_equal.
Qed.

Lemma classification_ignores_tonnage_witness :
  let m := @build plain_builtins shared_leg_direct shared_leg_indirect in
  let t := df_leg_detail shared_leg_report in
  map rank_view <$> classify m t
  = map rank_view <$> classify m (map without_tonnage t).
Proof.
  apply classification_ignores_tonnage. reflexivity.
Defined.

(** ** Text where a number is read (lines 24-27, 36-37) *)

Lemma float_unreadable `{Builtins} (r : row) col s :
  row_get r col = Some (VStr s) -> float_of_str s = None ->
  row_get r col ≫= py_float = None ∧ float_or_zero r col = None.
Proof. intros Hr Hs. unfold float_or_zero. rewrite Hr. simpl. by rewrite Hs. Qed.

(** A record whose CM, share or capacity cell holds text that does not
    convert to a number is skipped like one that lacks the column: the
    direct loop leaves the model as it is, and so does the indirect loop
    for the CM and the share. *)
Lemma unreadable_number_skips_record `{Builtins} (m : model) (r : row)
    (col s : string) :
  col ∈ ["CM"; "AI Share"; "AI Cap"]%string ->
  row_get r col = Some (VStr s) ->
  float_of_str s = None ->
  direct_row m r = m ∧ (col ≠ "AI Cap"%string -> indirect_row m r = m).
Proof.
  intros Hcol Hr Hs. destruct (float_unreadable r col s Hr Hs) as [Hf Hz].
  unfold direct_row, indirect_row, read_direct, read_indirect.
  repeat (apply elem_of_cons in Hcol as [->|Hcol]); [| | |by apply elem_of_nil in Hcol].
  - rewrite Hf. by destruct (row_get r "O-D").
  - rewrite Hz. destruct (row_get r "O-D"); [|done]. simpl.
    by destruct (row_get r "CM" ≫= py_float).
  - rewrite Hz. split; [|done]. destruct (row_get r "O-D"); [|done]. simpl.
    destruct (row_get r "CM" ≫= py_float); [|done]. simpl.
    by destruct (float_or_zero r "AI Share").
Qed.

Lemma unreadable_number_skips_record_witness :
  let r := [("O-D", VStr "A-B"); ("CM", VStr "n/a"); ("AI Share", VNum 5);
            ("AI Cap", VNum 5)]%string in
  @direct_row plain_builtins empty_model r = empty_model ∧
  @indirect_row plain_builtins empty_model r = empty_model.
Proof.
  destruct (@unreadable_number_skips_record plain_builtins empty_model
              [("O-D", VStr "A-B"); ("CM", VStr "n/a"); ("AI Share", VNum 5);
               ("AI Cap", VNum 5)]%string "CM" "n/a") as [Hd Hi].
  - by left.
  - reflexivity.
  - reflexivity.
  - split; [exact Hd|]. by apply Hi.
Defined.
